(** * tinydi / dimi: dependency storage, cycle detection and resolution

    A shallow embedding of [src/dimi/_storage.py] (the layered storage
    [DepStorage], its cycle detector and its two-phase resolution walk) and
    of [src/tinydi/di.py] (the [TinyDI] container), followed by the
    properties proved about them.

    Conventions of the embedding:
    - a dependency key is a callable, compared by identity: a [nat];
    - a Python [dict] keyed by callables is a [gmap nat _]; a [ChainMap]
      always holds at least one map, so it is its innermost map [maps[0]]
      together with the list of the others, nearest first;
    - a raised exception is the [Raise] outcome; recursion that Python does
      not bound is run with fuel, and [Exhausted] is the outcome of running
      out of it (the theorems show that the fuel the entry points supply is
      never exhausted where they claim a result);
    - factories and awaits have effects: they are threaded through a [World]
      that records every factory invocation in order, and the caches of the
      scope objects. *)

From stdpp Require Import gmap strings list fin_maps relations.

Set Default Proof Using "Type".
Set Warnings "-register-all".

(** ** Exceptions and outcomes *)

Abbreviation Key := nat (only parsing).

Inductive exception : Type :=
  | UnknownDependency (key : Key)
  | InvalidOperation (msg : string)
  | ValueError.

Inductive outcome (A : Type) : Type :=
  | Return (a : A)
  | Raise (e : exception)
  | Exhausted.
Arguments Return {A} a.
Arguments Raise {A} e.
Arguments Exhausted {A}.

#[global] Instance outcome_bind : MBind outcome := λ A B k m,
  match m with
  | Return a => k a
  | Raise e => Raise e
  | Exhausted => Exhausted
  end.

#[global] Instance outcome_ret : MRet outcome := λ A a, Return a.

(** A [for] loop whose body may raise: the state is threaded left to right
    and the first exception leaves the loop. *)
Fixpoint for_each {A S : Type} (body : A → S → outcome S) (l : list A) (s : S)
    : outcome S :=
  match l with
  | [] => Return s
  | x :: l' => s' ← body x s ; for_each body l' s'
  end.

(** ** Data model *)

(** Modelled from the spec: the scope classes of [scopes.py] ([Scope],
    [Factory] and the singleton-like scopes) are not in the sources.  A scope
    policy wraps a factory callable, knows whether it is asynchronous, and is
    either of the [Factory] variant (never caches) or singleton-like (caches
    after the first call).  [scope_id] is the identity of the scope object:
    two scopes wrapping the same callable are different objects with
    different caches. *)
Inductive ScopeKind : Type := Factory | Singleton.

Record Scope : Type := mkScope {
  scope_id : nat;
  func : Key;
  is_async : bool;
  kind : ScopeKind
}.

(** Modelled from the spec: the kwarg descriptor of [dependency.py]
    ([name], the target key [func], and the attribute path [attrs]). *)
Record InjectKWarg : Type := mkKWarg {
  name : string;
  kw_func : Key;
  attrs : list string
}.

(** Modelled from the spec: the dependency node of [dependency.py], a scope
    policy and the ordered kwarg descriptors it requires ([subdeps], read by
    [_has_cycle]). *)
Record Dependency : Type := mkDependency {
  scope : Scope;
  subdeps : list InjectKWarg
}.

#[global] Instance ScopeKind_eq_dec : EqDecision ScopeKind.
Proof. solve_decision. Defined.
#[global] Instance Scope_eq_dec : EqDecision Scope.
Proof. solve_decision. Defined.
#[global] Instance InjectKWarg_eq_dec : EqDecision InjectKWarg.
Proof. solve_decision. Defined.
#[global] Instance Dependency_eq_dec : EqDecision Dependency.
Proof. solve_decision. Defined.

(** ** [collections.ChainMap]

    Both containers keep their nodes in a [ChainMap].  Its constructor
    guarantees at least one map ([self.maps = list(maps) or [{}]]), so the
    chain is the innermost map [maps[0]] and the list of its ancestors
    [maps[1:]]. *)

Record ChainMap (V : Type) : Type := mkChain {
  innermost : gmap nat V;
  ancestors : list (gmap nat V)
}.
Arguments mkChain {V} innermost ancestors.
Arguments innermost {V} c.
Arguments ancestors {V} c.

Definition maps {V : Type} (self : ChainMap V) : list (gmap nat V) :=
  innermost self :: ancestors self.

(** [ChainMap()], given the maps in order. *)
Definition chain_of {V : Type} (ms : list (gmap nat V)) : ChainMap V :=
  match ms with
  | [] => mkChain ∅ []
  | m :: ms' => mkChain m ms'
  end.

(** The search of [ChainMap.__getitem__]: the first map holding the key
    answers; [None] is the [KeyError] of [__missing__]. *)
Fixpoint chain_lookup {V : Type} (ms : list (gmap nat V)) (key : Key) : option V :=
  match ms with
  | [] => None
  | m :: ms' =>
      match m !! key with
      | Some v => Some v
      | None => chain_lookup ms' key
      end
  end.

(** [ChainMap.__contains__]: [any(key in m for m in self.maps)]. *)
Definition chain_contains {V : Type} (self : ChainMap V) (key : Key) : bool :=
  existsb (λ m : gmap nat V, bool_decide (is_Some (m !! key))) (maps self).

(** [ChainMap.new_child(m)]: a chain of [m] followed by [self.maps]. *)
Definition new_child {V : Type} (self : ChainMap V) (m : gmap nat V) : ChainMap V :=
  chain_of (m :: maps self).

(** [ChainMap.parents]: a chain of [self.maps[1:]]. *)
Definition parents {V : Type} (self : ChainMap V) : ChainMap V :=
  chain_of (ancestors self).

(** [ChainMap.__setitem__]: [self.maps[0][key] = value]. *)
Definition chain_setitem {V : Type} (self : ChainMap V) (key : Key) (value : V)
    : ChainMap V :=
  mkChain (<[key := value]> (innermost self)) (ancestors self).

(** Every key some layer holds. *)
Definition keys {V : Type} (self : ChainMap V) : gset nat :=
  ⋃ (dom <$> maps self).

(** ** Values, factory invocations and scope policies *)

(** Factories are user code.  Their results are kept symbolic: the object
    built by the invocation number [serial] of the callable [f] on the
    keyword arguments [kwargs], and the attribute [attr] read off an object.
    Two invocations never build the same object. *)
Inductive value : Type :=
  | Built (serial : nat) (f : Key) (kwargs : list (string * value))
  | Attr (obj : value) (attr : string).

(** One factory invocation: the scope object that ran its callable, and
    whether the result was awaited. *)
Record Event : Type := mkEvent {
  ev_scope : Scope;
  ev_awaited : bool
}.

(** What resolution reads and writes outside the storage: the log of factory
    invocations, oldest first, and the values cached by scope objects. *)
Record World : Type := mkWorld {
  trace : list Event;
  cache : list (Scope * value)
}.

Fixpoint cache_lookup (c : list (Scope * value)) (s : Scope) : option value :=
  match c with
  | [] => None
  | (s', v) :: c' => if decide (s' = s) then Some v else cache_lookup c' s
  end.

Definition cached (w : World) (s : Scope) : option value :=
  cache_lookup (cache w) s.

(** Running the wrapped callable on resolved keyword arguments. *)
Definition invoke (s : Scope) (awaited : bool) (kwargs : list (string * value))
    (w : World) : value * World :=
  (Built (length (trace w)) (func s) kwargs,
   mkWorld (trace w ++ [mkEvent s awaited]) (cache w)).

(** Modelled from the spec: the scope policies of [scopes.py] are not in the
    sources.  The [Factory] variant always invokes the wrapped factory; the
    singleton-like variant stores the result of its first invocation and
    returns the stored result afterwards without invoking the factory. *)
Definition materialize (awaited : bool) (s : Scope) (kwargs : list (string * value))
    (w : World) : value * World :=
  match kind s with
  | Factory => invoke s awaited kwargs w
  | Singleton =>
      match cached w s with
      | Some v => (v, w)
      | None =>
          let '(v, w') := invoke s awaited kwargs w in
          (v, mkWorld (trace w') ((s, v) :: cache w'))
      end
  end.

(** Modelled from the spec: [call(kwargs)] of a scope policy. *)
Definition call (s : Scope) : list (string * value) → World → value * World :=
  materialize false s.

(** Modelled from the spec: [acall(kwargs)] awaits the factory if it is
    asynchronous and otherwise behaves identically to [call]. *)
Definition acall (s : Scope) : list (string * value) → World → value * World :=
  materialize (is_async s) s.

(** [dict[k] = v] on an insertion-ordered dictionary. *)
Fixpoint dict_set {V : Type} (d : list (string * V)) (k : string) (v : V)
    : list (string * V) :=
  match d with
  | [] => [(k, v)]
  | (k', v') :: d' =>
      if decide (k' = k) then (k, v) :: d' else (k', v') :: dict_set d' k v
  end.

(** [dict(pairs)]: the pairs are set one after the other. *)
Definition dict_of {V : Type} (pairs : list (string * V)) : list (string * V) :=
  fold_left (λ d p, dict_set d p.1 p.2) pairs [].

(** Modelled from the spec: [InjectKWarg.getattrs] projects the attribute
    path off the resolved object, one attribute after the other. *)
Definition getattrs (path : list string) (obj : value) : value :=
  fold_left Attr path obj.

(** Effectful code runs in a world and may raise: an exception keeps the
    effects that happened before it. *)
Definition Eff (A : Type) : Type := World → outcome A * World.

#[global] Instance Eff_bind : MBind Eff := λ A B k m w,
  match m w with
  | (Return a, w') => k a w'
  | (Raise e, w') => (Raise e, w')
  | (Exhausted, w') => (Exhausted, w')
  end.

#[global] Instance Eff_ret : MRet Eff := λ A a w, (Return a, w).

Definition raise {A : Type} (e : exception) : Eff A := λ w, (Raise e, w).
Definition exhausted {A : Type} : Eff A := λ w, (Exhausted, w).

(** An outcome that has no effect. *)
Definition pure_outcome {A : Type} (o : outcome A) : Eff A := λ w, (o, w).

(** An effect that cannot fail. *)
Definition total {A : Type} (f : World → A * World) : Eff A :=
  λ w, let '(a, w') := f w in (Return a, w').

(** A [for] loop that updates a local object [b] and has effects. *)
Fixpoint for_loop {A B : Type} (body : A → B → Eff B) (l : list A) (b : B) : Eff B :=
  match l with
  | [] => mret b
  | x :: l' => b' ← body x b ; for_loop body l' b'
  end.

(** The message of the [InvalidOperation] that rejects a cycle (the source
    string is not an f-string: the braces are part of the message). *)
Definition cycle_message : string :=
  "Cannot add dependency {key}, it causes a cycle".

(** The message of the [InvalidOperation] raised by a synchronous call of an
    asynchronous dependency. *)
Definition sync_message : string := "Cannot resolve async dependency synchronously".

(** The message of the [InvalidOperation] raised by [TinyDI.__getitem__]. *)
Definition async_message : string :=
  "Cannot extract async dependencies this way, use .aget instead".

(** ** [src/dimi/_storage.py] *)

Module Dimi.

Abbreviation DepStorage := (ChainMap Dependency).

(** [DepChainMap.__getitem__]: the [KeyError] of the chain map is suppressed
    and replaced by [UnknownDependency(key)]. *)
Definition __getitem__ (self : DepStorage) (key : Key) : outcome Dependency :=
  match chain_lookup (maps self) key with
  | Some v => Return v
  | None => Raise (UnknownDependency key)
  end.

(** *** The cycle detector *)

(** The three colours of [_has_cycle]: [colors] is a [defaultdict(int)], so
    a key that was never written reads as [0]. *)
Definition color_of (colors : gmap nat nat) (key : Key) : nat :=
  default 0 (colors !! key).

(** The inner [dfs] of [_has_cycle].  It returns the colouring it leaves
    behind; meeting a gray key raises [ValueError], and looking up a key that
    no layer holds raises [UnknownDependency] out of [self[key]]. *)
Fixpoint has_cycle_dfs (self : DepStorage) (fuel : nat) (key : Key)
    (colors : gmap nat nat) : outcome (gmap nat nat) :=
  match fuel with
  | 0 => Exhausted
  | S fuel' =>
      let color := color_of colors key in
      if color =? 1 then Raise ValueError
      else if color =? 2 then Return colors
      else
        let colors := <[key := 1]> colors in
        dep ← __getitem__ self key ;
        colors ← for_each (λ kwarg, has_cycle_dfs self fuel' (kw_func kwarg))
                          (subdeps dep) colors ;
        Return (<[key := 2]> colors)
  end.

(** The recursion of a depth-first walk nests at most once per stored key,
    plus the call that meets a coloured or an unknown key. *)
Definition walk_fuel (self : DepStorage) : nat := S (size (keys self)).

(** [DepStorage._has_cycle]: [suppress(ValueError)] turns the [ValueError]
    of [dfs] into [True]; any other exception passes through. *)
Definition _has_cycle (self : DepStorage) (key : Key) : outcome bool :=
  match has_cycle_dfs self (walk_fuel self) key ∅ with
  | Return _ => Return false
  | Raise ValueError => Return true
  | Raise e => Raise e
  | Exhausted => Exhausted
  end.

(** [DepStorage.__setitem__].  The operation mutates [self] only through
    the final [super().__setitem__]; it is modelled as a state transformer
    that returns the outcome together with the storage it leaves behind. *)
Definition __setitem__ (self : DepStorage) (key : Key) (value : Dependency)
    : outcome unit * DepStorage :=
  let copy := new_child self {[key := value]} in
  match _has_cycle copy key with
  | Return true =>
      (Raise (InvalidOperation cycle_message), self)
  | Return false => (Return tt, chain_setitem self key value)
  | Raise e => (Raise e, self)
  | Exhausted => (Exhausted, self)
  end.

(** *** Partially resolved dependencies *)

(** Modelled from the spec: [PartResolvedDependency] of [dependency.py] is
    not in the sources.  A working copy of a dependency node during a walk:
    the kwargs already resolved, the kwargs pending on an asynchronous
    factory (each carries the partial node of its target in place of the
    key), and the kwargs not visited yet. *)
Inductive PartResolvedDependency : Type :=
  | mkPartial (sc : Scope) (resolved : list (string * value))
              (under_resolving : list PendingKWarg)
              (unresolved : list InjectKWarg)
with PendingKWarg : Type :=
  | mkPending (name : string) (func : PartResolvedDependency) (attrs : list string).

Definition p_scope (d : PartResolvedDependency) : Scope :=
  match d with mkPartial sc _ _ _ => sc end.
Definition resolved (d : PartResolvedDependency) : list (string * value) :=
  match d with mkPartial _ r _ _ => r end.
Definition under_resolving (d : PartResolvedDependency) : list PendingKWarg :=
  match d with mkPartial _ _ u _ => u end.
Definition unresolved (d : PartResolvedDependency) : list InjectKWarg :=
  match d with mkPartial _ _ _ n => n end.

(** Modelled from the spec: [Dependency.partially_resolved()] makes a fresh
    working copy with every kwarg still unresolved. *)
Definition partially_resolved (dep : Dependency) : PartResolvedDependency :=
  mkPartial (scope dep) [] [] (subdeps dep).

(** Modelled from the spec: a partial node is asynchronous when its own
    factory is. *)
Definition p_is_async (d : PartResolvedDependency) : bool :=
  is_async (p_scope d).

(** Modelled from the spec: a partial node is resolved when no kwarg is
    unresolved or pending. *)
Definition is_resolved (d : PartResolvedDependency) : bool :=
  match unresolved d, under_resolving d with
  | [], [] => true
  | _, _ => false
  end.

(** Modelled from the spec: calling a partial node synchronously,
    [dependency()], materializes it through its scope policy; it fails with
    [InvalidOperation] when the dependency is asynchronous, by its own
    factory or by a kwarg still pending. *)
Definition p_call (d : PartResolvedDependency) : Eff value :=
  if p_is_async d || negb (is_resolved d)
  then raise (InvalidOperation sync_message)
  else total (call (p_scope d) (resolved d)).

(** Modelled from the spec: [await dependency()] materializes a partial node
    through its scope policy, awaiting the factory if it is asynchronous. *)
Definition p_await (d : PartResolvedDependency) : Eff value :=
  total (acall (p_scope d) (resolved d)).

(** *** Phase 1: the synchronous descent *)

(** What a phase-1 walk returns for a node below the top: the node itself,
    still partial, or the value it collapsed into. *)
Inductive Resolution : Type :=
  | Partial (d : PartResolvedDependency)
  | Value (v : value).

(** The top call of a walk returns the node itself. *)
Definition sync_result (top : bool) : Type :=
  if top then PartResolvedDependency else Resolution.

(** The body of the [for] loop of the phase-1 [dfs], for the kwarg [kwarg]
    of the node [dependency]; [dfs] is the recursive call. *)
Definition sync_step (self : DepStorage)
    (dfs : PartResolvedDependency → Eff Resolution)
    (kwarg : InjectKWarg) (dependency : PartResolvedDependency)
    : Eff PartResolvedDependency :=
  dep ← pure_outcome (__getitem__ self (kw_func kwarg)) ;
  subdep ← dfs (partially_resolved dep) ;
  match subdep with
  | Partial p =>
      mret (mkPartial (p_scope dependency) (resolved dependency)
              (under_resolving dependency ++ [mkPending (name kwarg) p (attrs kwarg)])
              (unresolved dependency))
  | Value v =>
      mret (mkPartial (p_scope dependency)
              (dict_set (resolved dependency) (name kwarg) (getattrs (attrs kwarg) v))
              (under_resolving dependency) (unresolved dependency))
  end.

(** The inner [dfs] of [_resolve_sync].  The test [top or is_async or not
    is_resolved] of its [return] is split on [top] first, which also decides
    whether the caller receives the node or a [Resolution]. *)
Fixpoint resolve_sync_dfs (self : DepStorage) (fuel : nat)
    (dependency : PartResolvedDependency) (top : bool) : Eff (sync_result top) :=
  match fuel with
  | 0 => exhausted
  | S fuel' =>
      dependency ←
        for_loop (sync_step self (λ d, resolve_sync_dfs self fuel' d false))
                 (unresolved dependency) dependency ;
      let dependency :=
        mkPartial (p_scope dependency) (resolved dependency)
                  (under_resolving dependency) [] in
      match top return Eff (sync_result top) with
      | true => mret dependency
      | false =>
          if p_is_async dependency || negb (is_resolved dependency)
          then mret (Partial dependency)
          else v ← p_call dependency ; mret (Value v)
      end
  end.

(** [DepStorage._resolve_sync]. *)
Definition _resolve_sync (self : DepStorage) (key : Key)
    : Eff PartResolvedDependency :=
  dep ← pure_outcome (__getitem__ self key) ;
  resolve_sync_dfs self (walk_fuel self) (partially_resolved dep) true.

(** *** Phase 2: the asynchronous completion *)

(** The inner [dfs] of [_resolve_async]: the top call returns the node, any
    other call the awaited value.  The recursion follows the partial nodes
    carried by the pending kwargs. *)
Definition async_result (top : bool) : Type :=
  if top then PartResolvedDependency else value.

Fixpoint resolve_async_dfs (dependency : PartResolvedDependency) (top : bool)
    {struct dependency} : Eff (async_result top) :=
  match dependency with
  | mkPartial sc res under unres =>
      res ← (fix loop (l : list PendingKWarg) (res : list (string * value))
                 {struct l} : Eff (list (string * value)) :=
               match l with
               | [] => mret res
               | mkPending n p a :: l' =>
                   v ← resolve_async_dfs p false ;
                   loop l' (dict_set res n (getattrs a v))
               end) under res ;
      let dependency := mkPartial sc res [] unres in
      match top return Eff (async_result top) with
      | true => mret dependency
      | false => p_await dependency
      end
  end.

(** [DepStorage._resolve_async]: phase 1, then phase 2 on its result. *)
Definition _resolve_async (self : DepStorage) (key : Key)
    : Eff PartResolvedDependency :=
  dependency ← _resolve_sync self key ;
  resolve_async_dfs dependency true.

(** [DepStorage.resolve]. *)
Definition resolve (self : DepStorage) (key : Key) : Eff value :=
  dependency ← _resolve_sync self key ;
  p_call dependency.

(** [DepStorage.aresolve]. *)
Definition aresolve (self : DepStorage) (key : Key) : Eff value :=
  dep ← _resolve_async self key ;
  if p_is_async dep then p_await dep else p_call dep.

End Dimi.

(** ** [src/tinydi/di.py] *)

Module TinyDI.

(** Modelled from the spec: the [Dependency] of tinydi's [dependency.py] is
    not in the sources.  [Dependency(value, kwargs)] holds the scope policy
    and, for each injected parameter, the dependency object that
    [_get_factory] returned when the node was registered. *)
Inductive Dependency : Type :=
  | mkDep (sc : Scope) (kwargs : list (string * Dependency)).

Definition d_scope (d : Dependency) : Scope :=
  match d with mkDep sc _ => sc end.
Definition d_kwargs (d : Dependency) : list (string * Dependency) :=
  match d with mkDep _ kw => kw end.

(** Modelled from the spec: a dependency is asynchronous iff its own
    factory is, or one that it requires, transitively, is. *)
Fixpoint d_is_async (d : Dependency) : bool :=
  match d with
  | mkDep sc kw =>
      is_async sc ||
      (fix any (l : list (string * Dependency)) : bool :=
         match l with
         | [] => false
         | (_, sub) :: l' => d_is_async sub || any l'
         end) kw
  end.

(** Modelled from the spec: [Dependency.call()] resolves the kwargs in
    their declared order and materializes the value through the scope
    policy. *)
Fixpoint d_call (d : Dependency) : Eff value :=
  match d with
  | mkDep sc kw =>
      kwargs ← (fix each (l : list (string * Dependency))
                    : Eff (list (string * value)) :=
                  match l with
                  | [] => mret []
                  | (n, sub) :: l' =>
                      v ← d_call sub ; rest ← each l' ; mret ((n, v) :: rest)
                  end) kw ;
      total (call sc kwargs)
  end.

(** Modelled from the spec: [Dependency.acall()] does the same, awaiting
    the asynchronous factories. *)
Fixpoint d_acall (d : Dependency) : Eff value :=
  match d with
  | mkDep sc kw =>
      kwargs ← (fix each (l : list (string * Dependency))
                    : Eff (list (string * value)) :=
                  match l with
                  | [] => mret []
                  | (n, sub) :: l' =>
                      v ← d_acall sub ; rest ← each l' ; mret ((n, v) :: rest)
                  end) kw ;
      total (acall sc kwargs)
  end.

(** The container: [self._deps] is a plain [ChainMap]. *)
Record TinyDI : Type := mkTinyDI { _deps : ChainMap Dependency }.


(** [TinyDI._get_factory]. *)
Definition _get_factory (self : TinyDI) (key : Key) : outcome Dependency :=
  match chain_lookup (maps (_deps self)) key with
  | Some v => Return v
  | None => Raise (UnknownDependency key)
  end.

(** [TinyDI.__contains__]. *)
Definition __contains__ (self : TinyDI) (key : Key) : bool :=
  chain_contains (_deps self) key.

(** [TinyDI.__getitem__] (also bound to [get]). *)
Definition __getitem__ (self : TinyDI) (key : Key) : Eff value :=
  dependency ← pure_outcome (_get_factory self key) ;
  if d_is_async dependency
  then raise (InvalidOperation async_message)
  else d_call dependency.

Definition get := __getitem__.

(** [TinyDI.aget]. *)
Definition aget (self : TinyDI) (key : Key) : Eff value :=
  dependency ← pure_outcome (_get_factory self key) ;
  if d_is_async dependency then d_acall dependency else d_call dependency.

(** [TinyDI._kwargs_to_inject]: the factories of the parameters that the
    caller has not bound; [arguments] are the names that
    [bind_partial] bound from the arguments of the caller. *)
Definition _kwargs_to_inject (arguments : list string)
    (factories : list (string * Dependency)) : list (string * Dependency) :=
  filter (λ p, p.1 ∉ arguments) factories.

(** The second argument of [di[key] = value]: a scope object, or a bare
    callable. *)
Inductive Registrable : Type :=
  | AsScope (s : Scope)
  | AsCallable (f : Key).

Section registration.
(** What Python's introspection answers about objects: whether an object
    is callable, whether a callable is a coroutine function, and the
    annotations of a callable that are [Annotated], in declaration order,
    each with the factory it names (none for a class whose [__init__] is
    not a function). *)
Variable callable : Key → bool.
Variable iscoroutinefunction : Key → bool.
Variable annotations : Key → list (string * Key).

(** [TinyDI._get_factories_for_func]: every named factory is looked up,
    in order, when the function is registered or decorated. *)
Fixpoint get_factories (self : TinyDI) (anns : list (string * Key))
    : outcome (list (string * Dependency)) :=
  match anns with
  | [] => Return []
  | (arg, factory) :: anns' =>
      dep ← _get_factory self factory ;
      rest ← get_factories self anns' ;
      Return ((arg, dep) :: rest)
  end.

Definition _get_factories_for_func (self : TinyDI) (f : Key)
    : outcome (list (string * Dependency)) :=
  get_factories self (annotations f).

(** [default_scope_class(value)]: a bare callable is wrapped in a
    [Factory] scope.  A [Factory] scope holds no cache, so its identity is
    never observed. *)
Definition default_scope_class (f : Key) : Scope :=
  mkScope 0 f (iscoroutinefunction f) Factory.

(** [TinyDI.__setitem__]. *)
Definition __setitem__ (self : TinyDI) (key : Key) (value : Registrable)
    : outcome unit * TinyDI :=
  if negb (callable key)
  then (Raise (InvalidOperation "Cannot add non-callable object to the DI container"), self)
  else
    let value :=
      match value with
      | AsScope s => s
      | AsCallable f => default_scope_class f
      end in
    match _get_factories_for_func self (func value) with
    | Return injectables =>
        let kwargs := dict_of (_kwargs_to_inject [] injectables) in
        (Return tt, mkTinyDI (chain_setitem (_deps self) key (mkDep value kwargs)))
    | Raise e => (Raise e, self)
    | Exhausted => (Exhausted, self)
    end.

(** A block of registrations: the first one that raises ends the block. *)
Fixpoint register_all (regs : list (Key * Registrable)) (self : TinyDI)
    : outcome unit * TinyDI :=
  match regs with
  | [] => (Return tt, self)
  | (key, value) :: regs' =>
      match __setitem__ self key value with
      | (Return _, self') => register_all regs' self'
      | failed => failed
      end
  end.
End registration.

(** [TinyDI.override]: a context manager.  The body runs on a new child
    layer; the [finally] clause restores [self._deps.parents] whether the
    body returned or raised. *)
Definition override {A : Type} (body : TinyDI → outcome A * TinyDI) (self : TinyDI)
    : outcome A * TinyDI :=
  let self := mkTinyDI (new_child (_deps self) ∅) in
  let '(result, self) := body self in
  (result, mkTinyDI (parents (_deps self))).

End TinyDI.

(** ** The dependency graph of a storage *)

Module Graph.
Import Dimi.

(** The node a storage answers for a key, through all its layers. *)
Definition node (self : DepStorage) (key : Key) : option Dependency :=
  chain_lookup (maps self) key.

(** [edge self k c]: the node registered for [k] has a kwarg whose target
    key is [c]. *)
Definition edge (self : DepStorage) (k c : Key) : Prop :=
  ∃ dep, node self k = Some dep ∧ c ∈ kw_func <$> subdeps dep.

(** A cycle can be reached from [key]. *)
Definition cycle_reachable (self : DepStorage) (key : Key) : Prop :=
  ∃ v, rtc (edge self) key v ∧ tc (edge self) v v.

(** Every key that can be reached from [key] is registered in some layer. *)
Definition closed_from (self : DepStorage) (key : Key) : Prop :=
  ∀ v, rtc (edge self) key v → is_Some (node self v).

(** Some key that can be reached from [key] is registered with an
    asynchronous factory. *)
Definition async_reachable (self : DepStorage) (key : Key) : Prop :=
  ∃ v dep, rtc (edge self) key v ∧ node self v = Some dep ∧
           is_async (scope dep) = true.

(** No node of the storage has a kwarg whose target no layer holds. *)
Definition no_dangling (self : DepStorage) : Prop :=
  ∀ k c, edge self k c → is_Some (node self c).

(** The colourings of the cycle detector. *)
Definition white (colors : gmap nat nat) (k : Key) : Prop :=
  color_of colors k ≠ 1 ∧ color_of colors k ≠ 2.

Definition gray (colors : gmap nat nat) (k : Key) : Prop := color_of colors k = 1.
Definition black (colors : gmap nat nat) (k : Key) : Prop := color_of colors k = 2.

(** Colours only advance: the gray keys stay the same and the black keys
    stay black. *)
Definition advances (colors colors' : gmap nat nat) : Prop :=
  (∀ k, gray colors' k ↔ gray colors k) ∧ (∀ k, black colors k → black colors' k).

#[global] Instance white_dec colors k : Decision (white colors k).
Proof. unfold white. apply _. Defined.

(** The stored keys that are still white: the measure of the walk. *)
Definition white_keys (self : DepStorage) (colors : gmap nat nat) : gset nat :=
  filter (λ k, white colors k) (keys self).

(** What holds of the black keys: they are registered, their successors are
    black, and no cycle can be reached from them. *)
Definition black_ok (self : DepStorage) (colors : gmap nat nat) : Prop :=
  ∀ b, black colors b →
    is_Some (node self b) ∧ (∀ c, edge self b c → black colors c) ∧
    ¬ cycle_reachable self b.

(** Every gray key is a strict ancestor of the key about to be visited. *)
Definition gray_ok (self : DepStorage) (colors : gmap nat nat) (key : Key) : Prop :=
  ∀ g, gray colors g → tc (edge self) g key.

(** What an outcome of the inner [dfs] of the detector tells. *)
Definition dfs_post (self : DepStorage) (key : Key) (r : outcome (gmap nat nat)) : Prop :=
  match r with
  | Return colors' => black_ok self colors'
  | Raise ValueError => cycle_reachable self key
  | Raise (UnknownDependency k) => rtc (edge self) key k ∧ node self k = None
  | Raise _ => False
  | Exhausted => True
  end.

End Graph.

(** ** Concrete storages *)

Module Examples.
Import Dimi.
#[local] Open Scope string_scope.
Definition plain (f : Key) : Scope := mkScope f f false Factory.
Definition coroutine (f : Key) : Scope := mkScope f f true Factory.
Definition needs (n : string) (k : Key) : InjectKWarg := mkKWarg n k [].
Definition empty_storage : DepStorage := chain_of [].
(** A candidate that names an unregistered key [7] before itself. *)
Definition unknown_then_self : Dependency :=
  mkDependency (plain 1) [needs "m" 7; needs "a" 1].
(** A candidate that names itself before an unregistered key [7]. *)
Definition self_then_unknown : Dependency :=
  mkDependency (plain 1) [needs "a" 1; needs "m" 7].
(** The chain [1] (sync), [2] (sync, needs [1]), [3] (async, needs [2]),
    [4] (sync, needs [3]). *)
Definition chain_storage : DepStorage :=
  mkChain (<[1 := mkDependency (plain 1) []]>
          (<[2 := mkDependency (plain 2) [needs "a" 1]]>
          (<[3 := mkDependency (coroutine 3) [needs "b" 2]]>
          (<[4 := mkDependency (plain 4) [needs "c" 3]]> ∅)))) [].
Definition singleton (f : Key) : Scope := mkScope f f false Singleton.
(** A diamond: [4] requires [2] and [3], which both require [1]; the scope
    policy of [1] is [shared]. *)
Definition diamond (shared : Scope) : DepStorage :=
  mkChain (<[1 := mkDependency shared []]>
          (<[2 := mkDependency (plain 2) [needs "a" 1]]>
          (<[3 := mkDependency (plain 3) [needs "a" 1]]>
          (<[4 := mkDependency (plain 4) [needs "b" 2; needs "c" 3]]> ∅)))) [].
(** A [TinyDI] container: [3] is asynchronous, and the synchronous [4]
    requires it. *)
Definition tiny_async : TinyDI.Dependency := TinyDI.mkDep (coroutine 3) [].
Definition tiny_needs_async : TinyDI.Dependency :=
  TinyDI.mkDep (plain 4) [("c", tiny_async)].
Definition tiny_container : TinyDI.TinyDI :=
  TinyDI.mkTinyDI (mkChain (<[3 := tiny_async]> (<[4 := tiny_needs_async]> ∅)) []).
(** A candidate for the key [1] of [chain_storage] that closes a cycle. *)
Definition closes_cycle : Dependency := mkDependency (plain 1) [needs "d" 4].
End Examples.

Import Dimi Graph Examples.

(** ** Vocabulary of the resolution walks *)

(** The exception is the [UnknownDependency] of a key that can be reached
    from [key] and that no layer holds. *)
Definition unknown_below (self : DepStorage) (key : Key) (e : exception) : Prop :=
  ∃ k, e = UnknownDependency k ∧ rtc (edge self) key k ∧ node self k = None.

(** What an outcome of the phase-1 [dfs] below the top tells about the
    node of [key]. *)
Definition sync_dfs_post (self : DepStorage) (key : Key) (dep : Dependency)
    (r : outcome Resolution * World) : Prop :=
  match r.1 with
  | Return (Value v) => closed_from self key ∧ ¬ async_reachable self key
  | Return (Partial p) =>
      closed_from self key ∧ async_reachable self key ∧
      p_scope p = scope dep ∧ unresolved p = []
  | Raise e => unknown_below self key e
  | Exhausted => True
  end.

(** What an outcome of the phase-1 loop over the kwargs [l] tells. *)
Definition sync_loop_post (self : DepStorage) (l : list InjectKWarg)
    (d : PartResolvedDependency) (r : outcome PartResolvedDependency * World) : Prop :=
  match r.1 with
  | Return d' =>
      p_scope d' = p_scope d ∧ unresolved d' = unresolved d ∧
      (∀ kw, kw ∈ l → closed_from self (kw_func kw)) ∧
      (under_resolving d' = [] →
         under_resolving d = [] ∧ ∀ kw, kw ∈ l → ¬ async_reachable self (kw_func kw)) ∧
      (under_resolving d' ≠ [] →
         under_resolving d ≠ [] ∨ ∃ kw, kw ∈ l ∧ async_reachable self (kw_func kw))
  | Raise e => ∃ kw, kw ∈ l ∧ unknown_below self (kw_func kw) e
  | Exhausted => True
  end.

(** What an outcome of the phase-1 [dfs] at the top tells. *)
Definition sync_top_post (self : DepStorage) (key : Key) (dep : Dependency)
    (r : outcome PartResolvedDependency * World) : Prop :=
  match r.1 with
  | Return p =>
      closed_from self key ∧ p_scope p = scope dep ∧ unresolved p = [] ∧
      (under_resolving p = [] →
         ∀ kw, kw ∈ subdeps dep → ¬ async_reachable self (kw_func kw)) ∧
      (under_resolving p ≠ [] →
         ∃ kw, kw ∈ subdeps dep ∧ async_reachable self (kw_func kw))
  | Raise e => unknown_below self key e
  | Exhausted => True
  end.


(** The [for] loop of the phase-2 [dfs], by itself. *)
Fixpoint complete_pending (l : list PendingKWarg) (res : list (string * value))
    : Eff (list (string * value)) :=
  match l with
  | [] => mret res
  | mkPending n p a :: l' =>
      v ← resolve_async_dfs p false ;
      complete_pending l' (dict_set res n (getattrs a v))
  end.

(** The world before any factory ran. *)
Definition fresh_world : World := mkWorld [] [].

(** ** Vocabulary of the scope policies *)

(** A materialization that a resolution path asks of a scope policy. *)
Record Request : Type := mkRequest {
  rq_scope : Scope;
  rq_awaited : bool;
  rq_kwargs : list (string * value)
}.

(** The materializations of any number of resolution paths, in order. *)
Fixpoint run_requests (rs : list Request) (w : World) : World :=
  match rs with
  | [] => w
  | r :: rs' =>
      run_requests rs' (materialize (rq_awaited r) (rq_scope r) (rq_kwargs r) w).2
  end.

(** How many times the factory wrapped by the scope object [s] ran. *)
Definition invocations (s : Scope) (w : World) : nat :=
  length (filter (λ e, ev_scope e = s) (trace w)).

(** ** Vocabulary of the [TinyDI] dependencies *)

Module TinySpec.
Import TinyDI.

(** The number of nodes of a dependency, through its kwargs. *)
Fixpoint d_size (d : Dependency) : nat :=
  match d with
  | mkDep _ kw =>
      S ((fix sum (l : list (string * Dependency)) : nat :=
            match l with
            | [] => 0
            | (_, sub) :: l' => d_size sub + sum l'
            end) kw)
  end.

(** The loop of [d_is_async] over the kwargs, by itself. *)
Fixpoint any_async (l : list (string * Dependency)) : bool :=
  match l with
  | [] => false
  | (_, sub) :: l' => d_is_async sub || any_async l'
  end.

(** The loop of [d_call] over the kwargs, by itself. *)
Fixpoint call_each (l : list (string * Dependency)) : Eff (list (string * value)) :=
  match l with
  | [] => mret []
  | (n, sub) :: l' => v ← d_call sub ; rest ← call_each l' ; mret ((n, v) :: rest)
  end.

(** The loop of [d_acall] over the kwargs, by itself. *)
Fixpoint acall_each (l : list (string * Dependency)) : Eff (list (string * value)) :=
  match l with
  | [] => mret []
  | (n, sub) :: l' => v ← d_acall sub ; rest ← acall_each l' ; mret ((n, v) :: rest)
  end.
End TinySpec.
Import TinySpec.


(** ** Vocabulary of the further properties *)

(** No key of the storage is on a cycle. *)
Definition acyclic (self : DepStorage) : Prop :=
  ∀ k, ¬ tc (edge self) k k.




(** From [w] to [w'] the log only grew, by events that satisfy [P], and no
    cached value was dropped or replaced. *)
Definition grows (P : Event → Prop) (w w' : World) : Prop :=
  (∃ evs, trace w' = trace w ++ evs ∧ Forall P evs) ∧
  (∀ s v, cached w s = Some v → cached w' s = Some v).

(** An effect that only grows the world, whatever its outcome. *)
Definition growing {A : Type} (P : Event → Prop) (m : Eff A) : Prop :=
  ∀ w, grows P w (m w).2.

(** The event of a synchronous factory that was called, not awaited. *)
Definition sync_event (e : Event) : Prop :=
  is_async (ev_scope e) = false ∧ ev_awaited e = false.

(** The event of a factory that was awaited iff it is asynchronous. *)
Definition sound_event (e : Event) : Prop :=
  ev_awaited e = is_async (ev_scope e).



(** A registration that [chain_storage] accepts: [5] requires [4]. *)
Definition needs_four : Dependency := mkDependency (plain 5) [needs "d"%string 4].

(** ** [TinyDI.inject] *)

Module Inject.
Import TinyDI TinySpec.

(** The closure that [inject] builds for [func]: the function it wraps,
    whether that function is a coroutine function (which of [async_wrapper]
    and [sync_wrapper] is returned), and the [injectable_factories] looked up
    when the function was decorated. *)
Record Wrapper : Type := mkWrapper {
  wrapped : Key;
  is_coroutine : bool;
  injectable_factories : list (string * Dependency)
}.

(** [TinyDI.inject] applied to [func]: the inner [decorator]. *)
Definition inject (iscoroutinefunction : Key → bool)
    (annotations : Key → list (string * Key)) (self : TinyDI) (func : Key)
    : outcome Wrapper :=
  injectable_factories ← _get_factories_for_func annotations self func ;
  Return (mkWrapper func (iscoroutinefunction func) injectable_factories).





End Inject.

Import Inject.

(** * Properties *)

(** ** The cycle detector *)

Lemma outcome_bind_Return {A B} (m : outcome A) (k : A → outcome B) b :
  (x ← m ; k x) = Return b → ∃ a, m = Return a ∧ k a = Return b.
Proof. destruct m; simpl; intros; eauto; discriminate. Qed.

Lemma color_of_insert colors k c k' :
  color_of (<[k := c]> colors) k' = if decide (k = k') then c else color_of colors k'.
Proof.
  unfold color_of. rewrite lookup_insert. by case_decide.
Qed.

Lemma chain_lookup_keys {V} (ms : list (gmap nat V)) k v :
  chain_lookup ms k = Some v → k ∈ ⋃ (dom <$> ms).
Proof.
  induction ms as [|m ms IH]; [done|].
  rewrite fmap_cons, union_list_cons. cbn [chain_lookup].
  destruct (m !! k) eqn:E.
  - intros _. apply elem_of_union_l. by apply elem_of_dom.
  - intros H. apply elem_of_union_r. auto.
Qed.

Lemma node_keys (self : DepStorage) k dep :
  node self k = Some dep → k ∈ keys self.
Proof. apply chain_lookup_keys. Qed.

Lemma getitem_node self k :
  __getitem__ self k = match node self k with Some d => Return d | None => Raise (UnknownDependency k) end.
Proof. reflexivity. Qed.

Section cycle_detector.
Variable self : DepStorage.


Lemma advances_refl c : advances c c.
Proof. split; naive_solver. Qed.
Lemma advances_trans a b c : advances a b → advances b c → advances a c.
Proof. intros [? ?] [? ?]; split; intros k; [rewrite H1; auto | auto]. Qed.

Lemma dfs_advances fuel : ∀ key colors colors',
  has_cycle_dfs self fuel key colors = Return colors' →
  advances colors colors' ∧ black colors' key.
Proof.
  induction fuel as [|fuel IH]; intros key colors colors'; simpl; [done|].
  destruct (color_of colors key =? 1) eqn:E1; [done|].
  destruct (color_of colors key =? 2) eqn:E2.
  { intros [= <-]. split; [apply advances_refl|]. by apply Nat.eqb_eq. }
  apply Nat.eqb_neq in E1, E2.
  intros H. apply outcome_bind_Return in H as (dep & Hdep & H).
  apply outcome_bind_Return in H as (c2 & Hloop & H). injection H as <-.
  assert (Hl : advances (<[key:=1]> colors) c2).
  { clear Hdep. revert Hloop. generalize (<[key:=1]> colors).
    induction (subdeps dep) as [|kw l IHl]; intros c; simpl.
    - intros [= <-]. apply advances_refl.
    - intros H. apply outcome_bind_Return in H as (c1 & H1 & H).
      apply IH in H1 as [H1 _]. eapply advances_trans; eauto. }
  destruct Hl as [Hg Hb]. split; [split|].
  - intros k. unfold gray in *. rewrite color_of_insert. case_decide; subst.
    + split; [done|]. intros; congruence.
    + rewrite Hg,  color_of_insert. case_decide; [congruence|done].
  - intros k Hk. unfold black in *. rewrite color_of_insert. case_decide; [done|].
    apply Hb. rewrite color_of_insert. case_decide; [congruence|done].
  - unfold black. rewrite color_of_insert. by case_decide.
Qed.


Lemma advances_white a b k : advances a b → white b k → white a k.
Proof.
  intros [Hg Hb] [H1 H2]. unfold white, gray, black in *. split.
  - intros E. apply H1. by apply Hg.
  - intros E. apply H2. by apply Hb.
Qed.

Lemma advances_white_keys a b : advances a b → white_keys self b ⊆ white_keys self a.
Proof.
  intros H k. unfold white_keys. rewrite !elem_of_filter.
  intros [? ?]; split; [by eapply advances_white|done].
Qed.

Lemma dfs_fuel fuel : ∀ key colors,
  size (white_keys self colors) < fuel →
  has_cycle_dfs self fuel key colors ≠ Exhausted.
Proof.
  induction fuel as [|fuel IH]; intros key colors Hsz; [lia|]. simpl.
  destruct (color_of colors key =? 1) eqn:E1; [done|].
  destruct (color_of colors key =? 2) eqn:E2; [done|].
  apply Nat.eqb_neq in E1, E2.
  rewrite getitem_node. destruct (node self key) as [dep|] eqn:Hn; [|done].
  cbn [mbind outcome_bind].
  assert (Hlt : size (white_keys self (<[key:=1]> colors)) < fuel).
  { assert (white_keys self (<[key:=1]> colors) ⊂ white_keys self colors); [|
      apply subset_size in H; lia].
    split.
    - intros k. unfold white_keys. rewrite !elem_of_filter.
      intros [Hw Hk]; split; [|done]. unfold white in *.
      rewrite color_of_insert in Hw. destruct (decide (key = k)); [|done].
      by destruct Hw.
    - intros Hsub. specialize (Hsub key). unfold white_keys in Hsub.
      rewrite !elem_of_filter in Hsub. destruct Hsub as [Hw _].
      { split; [done|]. by eapply node_keys. }
      unfold white in Hw. rewrite color_of_insert in Hw.
      destruct (decide (key = key)); [by destruct Hw|done]. }
  revert Hlt. generalize (<[key:=1]> colors). clear Hn.
  induction (subdeps dep) as [|kw l IHl]; intros c Hc; simpl; [done|].
  destruct (has_cycle_dfs self fuel (kw_func kw) c) as [c1| |] eqn:E; simpl.
  - apply IHl. apply dfs_advances in E as [E _].
    apply advances_white_keys, subseteq_size in E. lia.
  - destruct l; done.
  - by apply IH in E.
Qed.


Lemma black_closed colors b v :
  black_ok self colors → black colors b → rtc (edge self) b v → black colors v.
Proof.
  intros Hok Hb Hr. induction Hr as [|x y z Hxy _ IH]; [done|].
  apply IH. by apply (Hok x Hb).
Qed.

Lemma tc_inv_l {A} (R : relation A) x z :
  tc R x z → ∃ y, R x y ∧ rtc R y z.
Proof.
  destruct 1 as [x z H|x y z H1 H2]; [exists z|exists y]; split; auto.
  - apply rtc_refl.
  - by apply tc_rtc.
Qed.

Lemma cycle_reachable_step k c :
  edge self k c → cycle_reachable self c → cycle_reachable self k.
Proof. intros He (v & Hr & Hc). exists v. split; [by eapply rtc_l|done]. Qed.


Lemma dfs_spec fuel : ∀ key colors,
  black_ok self colors → gray_ok self colors key →
  dfs_post self key (has_cycle_dfs self fuel key colors).
Proof.
  induction fuel as [|fuel IH]; intros key colors Hb Hg; [done|]. simpl.
  destruct (color_of colors key =? 1) eqn:E1.
  { apply Nat.eqb_eq in E1. exists key. split; [done|]. by apply Hg. }
  destruct (color_of colors key =? 2) eqn:E2; [done|].
  apply Nat.eqb_neq in E1, E2.
  rewrite getitem_node. destruct (node self key) as [dep|] eqn:Hn; [|by split].
  cbn [mbind outcome_bind].
  set (c1 := <[key:=1]> colors).
  assert (Hb1 : black_ok self c1).
  { intros b Hbb. unfold black, c1 in Hbb. rewrite color_of_insert in Hbb.
    case_decide as Hd; [done|]. destruct (Hb b Hbb) as (? & Hs & ?).
    split_and!; [done| |done]. intros c Hc. unfold black, c1.
    rewrite color_of_insert. case_decide; [|by apply Hs].
    subst c. by specialize (Hs _ Hc). }
  assert (Hloop : ∀ l c, l ⊆ subdeps dep → black_ok self c → advances c1 c →
     match for_each (λ kwarg, has_cycle_dfs self fuel (kw_func kwarg)) l c with
     | Return c' => black_ok self c' ∧ advances c1 c' ∧ ∀ kw, kw ∈ l → black c' (kw_func kw)
     | r => dfs_post self key r
     end).
  { induction l as [|kw l IHl]; intros c Hl Hbc Hadv; simpl.
    { split_and!; [done..|]. intros kw Hk. by apply elem_of_nil in Hk. }
    assert (Hedge : edge self key (kw_func kw)).
    { exists dep. split; [done|]. apply list_elem_of_fmap. exists kw.
      split; [done|]. apply Hl. left. }
    assert (Hgc : gray_ok self c (kw_func kw)).
    { intros g Hgg. apply Hadv in Hgg. unfold gray, c1 in Hgg.
      rewrite color_of_insert in Hgg. case_decide; [subst; by apply tc_once|].
      eapply tc_r; [by apply Hg|done]. }
    pose proof (IH (kw_func kw) c Hbc Hgc) as Hp.
    destruct (has_cycle_dfs self fuel (kw_func kw) c) as [c2|e|] eqn:E; simpl.
    - apply dfs_advances in E as [Ha Hk].
      assert (Hl' : l ⊆ subdeps dep).
      { intros x Hx. apply Hl. by right. }
      specialize (IHl c2 Hl' Hp (advances_trans _ _ _ Hadv Ha)).
      destruct (for_each _ l c2) as [c3|e|] eqn:E3; try done.
      destruct IHl as (H1 & H2 & H3). split_and!; [done..|].
      intros kw' [->|Hin]%elem_of_cons; [|by apply H3].
      (* the colouring after c2 only advances *)
      assert (advances c2 c3) as [_ Hmono]; [|by apply Hmono].
      clear -E3 IH. revert c2 E3.
      induction l as [|x l IHl]; intros c2; simpl; [intros [= <-]; apply advances_refl|].
      intros H. apply outcome_bind_Return in H as (c' & H1 & H).
      apply dfs_advances in H1 as [H1 _]. eapply advances_trans; eauto.
    - destruct e as [k| | ]; simpl in *; try done.
      + destruct Hp as [Hr Hk]. split; [by eapply rtc_l|done].
      + by eapply cycle_reachable_step.
    - done. }
  specialize (Hloop (subdeps dep) c1 (reflexivity _) Hb1 (advances_refl _)).
  destruct (for_each _ (subdeps dep) c1) as [c2|e|] eqn:E; try done.
  destruct Hloop as (Hb2 & [Hg2 Hm2] & Hch). simpl.
  assert (Hkey : gray c2 key).
  { apply Hg2. unfold gray, c1. rewrite color_of_insert. by case_decide. }
  assert (Hsucc : ∀ c, edge self key c → black c2 c).
  { intros c (dep' & Hd & Hc). rewrite Hn in Hd. injection Hd as <-.
    apply list_elem_of_fmap in Hc as (kw & -> & Hkw). by apply Hch. }
  intros b Hbb. unfold black in Hbb. rewrite color_of_insert in Hbb.
  case_decide as Hd.
  - subst b. split_and!; [by rewrite Hn| |].
    + intros c Hc. unfold black. rewrite color_of_insert. case_decide; [done|].
      by apply Hsucc.
    + intros (v & Hr & Hc). apply rtc_tc in Hr as [<-|Hr].
      * apply tc_inv_l in Hc as (y & Hy & Hr).
        pose proof (black_closed c2 y key Hb2 (Hsucc _ Hy) Hr) as Hk.
        unfold black, gray in *. congruence.
      * apply tc_inv_l in Hr as (y & Hy & Hr).
        destruct (Hb2 y (Hsucc _ Hy)) as (_ & _ & Hno). apply Hno. by exists v.
  - destruct (Hb2 b Hbb) as (? & Hs & ?). split_and!; [done| |done].
    intros c Hc. unfold black. rewrite color_of_insert. case_decide; [done|].
    by apply Hs.
Qed.
End cycle_detector.

Lemma black_ok_empty self : black_ok self ∅.
Proof. intros b Hb. unfold black, color_of in Hb. by rewrite lookup_empty in Hb. Qed.

Lemma gray_ok_empty self key : gray_ok self ∅ key.
Proof. intros b Hb. unfold gray, color_of in Hb. by rewrite lookup_empty in Hb. Qed.

Lemma white_keys_size self colors : size (white_keys self colors) < walk_fuel self.
Proof.
  unfold walk_fuel. apply Nat.lt_succ_r, subseteq_size.
  intros k. unfold white_keys. rewrite elem_of_filter. by intros [_ ?].
Qed.

Lemma has_cycle_total self key : _has_cycle self key ≠ Exhausted.
Proof.
  unfold _has_cycle.
  pose proof (dfs_fuel self (walk_fuel self) key ∅ (white_keys_size _ _)).
  destruct (has_cycle_dfs _ _ _ _) as [?|[]|]; done.
Qed.

Lemma has_cycle_true self key :
  _has_cycle self key = Return true → cycle_reachable self key.
Proof.
  unfold _has_cycle.
  pose proof (dfs_spec self (walk_fuel self) key ∅ (black_ok_empty _) (gray_ok_empty _ _)) as H.
  destruct (has_cycle_dfs _ _ _ _) as [?|[]|]; done.
Qed.

Lemma has_cycle_false self key :
  _has_cycle self key = Return false →
  ¬ cycle_reachable self key ∧ closed_from self key.
Proof.
  unfold _has_cycle.
  pose proof (dfs_spec self (walk_fuel self) key ∅ (black_ok_empty _) (gray_ok_empty _ _)) as H.
  destruct (has_cycle_dfs _ _ _ _) as [c|[]|] eqn:E; try done. intros _.
  apply dfs_advances in E as [_ Hk]. split.
  - by apply (H key Hk).
  - intros v Hv. by apply (H v), (black_closed self c key v).
Qed.

Lemma has_cycle_raise self key e :
  _has_cycle self key = Raise e →
  ∃ k, e = UnknownDependency k ∧ rtc (edge self) key k ∧ node self k = None.
Proof.
  unfold _has_cycle.
  pose proof (dfs_spec self (walk_fuel self) key ∅ (black_ok_empty _) (gray_ok_empty _ _)) as H.
  destruct (has_cycle_dfs _ _ _ _) as [c|[k| |]|] eqn:E; try done.
  intros [= <-]. exists k. by destruct H.
Qed.

Lemma has_cycle_closed self key :
  closed_from self key → ∃ b, _has_cycle self key = Return b.
Proof.
  intros Hc. destruct (_has_cycle self key) as [b|e|] eqn:E; [by eauto| |].
  - apply has_cycle_raise in E as (k & _ & Hr & Hn). apply Hc in Hr.
    rewrite Hn in Hr. by destruct Hr.
  - by apply has_cycle_total in E.
Qed.

(** ** Storages with the same nodes have the same graph *)

Section same_nodes.
Variables a b : DepStorage.
Hypothesis Hnodes : ∀ k, node a k = node b k.

Lemma edge_ext k c : edge a k c ↔ edge b k c.
Proof using Hnodes. unfold edge. by setoid_rewrite Hnodes. Qed.

Lemma rtc_edge_ext k c : rtc (edge a) k c ↔ rtc (edge b) k c.
Proof using Hnodes.
  split; induction 1; try apply rtc_refl; eapply rtc_l; eauto; by apply edge_ext.
Qed.

Lemma tc_edge_ext k c : tc (edge a) k c ↔ tc (edge b) k c.
Proof using Hnodes.
  split; induction 1.
  1,3: apply tc_once; by apply edge_ext.
  all: eapply tc_l; eauto; by apply edge_ext.
Qed.

Lemma cycle_reachable_ext k : cycle_reachable a k ↔ cycle_reachable b k.
Proof using Hnodes.
  unfold cycle_reachable. setoid_rewrite rtc_edge_ext. by setoid_rewrite tc_edge_ext.
Qed.

Lemma closed_from_ext k : closed_from a k ↔ closed_from b k.
Proof using Hnodes.
  unfold closed_from. setoid_rewrite rtc_edge_ext. by setoid_rewrite Hnodes.
Qed.
End same_nodes.

Lemma node_chain_setitem (self : DepStorage) key value k :
  node (chain_setitem self key value) k =
  if decide (key = k) then Some value else node self k.
Proof.
  unfold node, chain_setitem, maps. cbn [innermost ancestors chain_lookup].
  rewrite lookup_insert. by destruct (decide (key = k)).
Qed.

Lemma node_new_child (self : DepStorage) key value k :
  node (new_child self {[key := value]}) k = node (chain_setitem self key value) k.
Proof.
  rewrite node_chain_setitem.
  unfold node, new_child, chain_of, maps. cbn [innermost ancestors chain_lookup].
  rewrite lookup_singleton. by destruct (decide (key = k)).
Qed.


(** ** Registration *)

Lemma setitem_cases self key value :
  let after := chain_setitem self key value in
  match __setitem__ self key value with
  | (Return _, self') => self' = after ∧ ¬ cycle_reachable after key ∧ closed_from after key
  | (Raise (InvalidOperation msg), self') =>
      self' = self ∧ msg = cycle_message ∧ cycle_reachable after key
  | (Raise (UnknownDependency k), self') =>
      self' = self ∧ rtc (edge after) key k ∧ node after k = None
  | (Raise _, _) => False
  | (Exhausted, _) => False
  end.
Proof.
  intros after. unfold __setitem__.
  pose proof (node_new_child self key value) as Hn.
  destruct (_has_cycle _ key) as [[]|e|] eqn:E.
  - apply has_cycle_true in E. split_and!; [done..|].
    by apply (cycle_reachable_ext _ _ Hn).
  - apply has_cycle_false in E as [E1 E2]. split_and!; [done| |].
    + intros Hcy. apply E1. by apply (cycle_reachable_ext _ _ Hn).
    + by apply (closed_from_ext _ _ Hn).
  - apply has_cycle_raise in E as (k & -> & Hr & Hk). split_and!; [done| |].
    + by apply (rtc_edge_ext _ _ Hn).
    + unfold after. by rewrite <- Hn.
  - by apply has_cycle_total in E.
Qed.

(** C3 (amended).  For every storage and every key such that every key
    reachable from it is registered in some layer, [_has_cycle] returns
    [True] iff a cycle can be reached from the key, and [False] iff none
    can.  Its walk is the three-colouring: a visit of a gray key raises the
    [ValueError] that reports the cycle at once, and a visit of a black key
    returns without touching the colouring. *)
Theorem has_cycle_three_colouring (self : DepStorage) (key : Key) :
  closed_from self key →
  (_has_cycle self key = Return true ↔ cycle_reachable self key) ∧
  (_has_cycle self key = Return false ↔ ¬ cycle_reachable self key) ∧
  (∀ fuel colors, gray colors key →
     has_cycle_dfs self (S fuel) key colors = Raise ValueError) ∧
  (∀ fuel colors, black colors key →
     has_cycle_dfs self (S fuel) key colors = Return colors).
Proof.
  intros Hc. destruct (has_cycle_closed self key Hc) as [b Hb]. split_and!.
  - split; [apply has_cycle_true|]. intros Hcy. destruct b; [done|].
    by apply has_cycle_false in Hb as [Hb _].
  - split; [by intros [H _]%has_cycle_false|]. intros Hn. destruct b; [|done].
    by apply has_cycle_true in Hb.
  - intros fuel colors Hg. unfold gray in Hg. simpl. by rewrite Hg.
  - intros fuel colors Hg. unfold black in Hg. simpl. by rewrite Hg.
Qed.

Lemma chain_storage_closed : closed_from chain_storage 4.
Proof. by apply (has_cycle_false chain_storage 4). Defined.

Lemma has_cycle_three_colouring_witness :
  closed_from chain_storage 4 ∧
  (_has_cycle chain_storage 4 = Return true ↔ cycle_reachable chain_storage 4).
Proof.
  split; [apply chain_storage_closed|].
  apply (has_cycle_three_colouring chain_storage 4 chain_storage_closed).
Defined.

(** C3 as stated fails: a node that names an unregistered key before itself
    is on a cycle, and the detector raises [UnknownDependency] instead of
    returning [True]. *)
Lemma has_cycle_unknown_before_gray :
  ¬ (∀ (self : DepStorage) (key : Key),
       _has_cycle self key = Return true ↔ cycle_reachable self key).
Proof.
  intros H.
  specialize (H (chain_setitem empty_storage 1 unknown_then_self) 1).
  assert (Hc : cycle_reachable (chain_setitem empty_storage 1 unknown_then_self) 1).
  { exists 1. split; [done|]. apply tc_once. exists unknown_then_self.
    split; [done|]. simpl. by repeat constructor. }
  apply H in Hc. vm_compute in Hc. discriminate.
Qed.

Lemma no_dangling_setitem self key value :
  no_dangling self → closed_from (chain_setitem self key value) key →
  no_dangling (chain_setitem self key value).
Proof.
  intros Hnd Hcl k c He. destruct (decide (key = k)) as [->|Hne].
  - apply Hcl. by apply rtc_once.
  - destruct He as (dep & Hd & Hc). rewrite node_chain_setitem in Hd |- *.
    destruct (decide (key = k)); [done|]. destruct (decide (key = c)); [done|].
    apply (Hnd k c). by exists dep.
Qed.

(** C1 (amended).  A registration whose insertion makes a cycle reachable
    from the candidate key fails and leaves the storage as it was.  The
    exception is the [InvalidOperation] of a cycle whenever every key
    reachable from the candidate is registered; otherwise it may be the
    [UnknownDependency] of an unregistered key that the walk met first.  The
    check runs on the hypothetical storage [new_child self {key: value}],
    whose graph is that of the storage after the insertion. *)
Theorem setitem_cycle_rejected (self : DepStorage) (key : Key) (value : Dependency) :
  cycle_reachable (chain_setitem self key value) key →
  ∃ e, __setitem__ self key value = (Raise e, self) ∧
       (e = InvalidOperation cycle_message ∨
        ∃ k, e = UnknownDependency k ∧
             rtc (edge (chain_setitem self key value)) key k ∧
             node (chain_setitem self key value) k = None) ∧
       (closed_from (chain_setitem self key value) key →
        e = InvalidOperation cycle_message).
Proof.
  intros Hcy. pose proof (setitem_cases self key value) as H. simpl in H.
  destruct (__setitem__ self key value) as [[[]|e|] self'] eqn:E; [|destruct e as [k|msg|]|]; try done.
  - by destruct H as (_ & H & _).
  - destruct H as (-> & Hr & Hk). exists (UnknownDependency k). split_and!; [done| |].
    + right. by exists k.
    + intros Hcl. apply Hcl in Hr. rewrite Hk in Hr. by destruct Hr.
  - destruct H as (-> & -> & _). exists (InvalidOperation cycle_message).
    split_and!; [done|by left|done].
Qed.

Lemma setitem_cycle_rejected_witness :
  cycle_reachable (chain_setitem chain_storage 1 closes_cycle) 1 ∧
  ∃ e, __setitem__ chain_storage 1 closes_cycle = (Raise e, chain_storage) ∧
       (e = InvalidOperation cycle_message ∨
        ∃ k, e = UnknownDependency k ∧
             rtc (edge (chain_setitem chain_storage 1 closes_cycle)) 1 k ∧
             node (chain_setitem chain_storage 1 closes_cycle) k = None) ∧
       (closed_from (chain_setitem chain_storage 1 closes_cycle) 1 →
        e = InvalidOperation cycle_message).
Proof.
  assert (H : cycle_reachable (chain_setitem chain_storage 1 closes_cycle) 1).
  { apply has_cycle_true. vm_compute. reflexivity. }
  split; [exact H|]. apply (setitem_cycle_rejected chain_storage 1 closes_cycle H).
Defined.

(** C1 as stated fails: the candidate [unknown_then_self] closes a cycle on
    itself, and its registration raises [UnknownDependency 7], not the
    exception of a cycle. *)
Lemma setitem_cycle_unknown_first :
  ¬ (∀ (self : DepStorage) (key : Key) (value : Dependency),
       cycle_reachable (chain_setitem self key value) key →
       ∃ msg, __setitem__ self key value = (Raise (InvalidOperation msg), self)).
Proof.
  intros H. destruct (H empty_storage 1 unknown_then_self) as [msg Hm].
  - exists 1. split; [done|]. apply tc_once. exists unknown_then_self.
    split; [done|]. simpl. by repeat constructor.
  - vm_compute in Hm. discriminate.
Qed.

Lemma get_factories_unknown (self : TinyDI.TinyDI) anns :
  (∃ k, k ∈ anns.*2 ∧ chain_lookup (maps (TinyDI._deps self)) k = None) →
  ∃ k, k ∈ anns.*2 ∧ chain_lookup (maps (TinyDI._deps self)) k = None ∧
       TinyDI.get_factories self anns = Raise (UnknownDependency k).
Proof.
  induction anns as [|[arg factory] anns IH]; intros (k & Hk & Hn).
  { by apply elem_of_nil in Hk. }
  cbn [TinyDI.get_factories]. unfold TinyDI._get_factory at 1.
  destruct (chain_lookup _ factory) as [dep|] eqn:E; cbn [mbind outcome_bind].
  - rewrite fmap_cons in Hk. apply elem_of_cons in Hk as [->|Hk]; [simpl in *; congruence|].
    destruct IH as (k' & Hk' & Hn' & ->); [by eauto|].
    exists k'. split_and!; [|done..]. rewrite fmap_cons. by right.
  - exists factory. split_and!; [|done..]. rewrite fmap_cons. by left.
Qed.

(** C10 (amended).  A registration whose candidate reaches a key that no
    layer holds fails at registration time and inserts nothing: with the
    [UnknownDependency] of such a key, or with the [InvalidOperation] of a
    cycle when the walk meets a cycle first; it is [UnknownDependency]
    whenever no cycle can be reached.  A registration that succeeds leaves
    every key reachable from the candidate registered, and keeps a storage
    free of dangling edges free of them.  In [TinyDI], registering a
    callable key whose factory names an unregistered key raises
    [UnknownDependency] from [_get_factories_for_func] and inserts
    nothing. *)
Theorem setitem_requires_closure (self : DepStorage) (key : Key) (value : Dependency) :
  (¬ closed_from (chain_setitem self key value) key →
   ∃ e, __setitem__ self key value = (Raise e, self) ∧
        ((∃ k, e = UnknownDependency k ∧
               rtc (edge (chain_setitem self key value)) key k ∧
               node (chain_setitem self key value) k = None) ∨
         (e = InvalidOperation cycle_message ∧
          cycle_reachable (chain_setitem self key value) key))) ∧
  (¬ closed_from (chain_setitem self key value) key →
   ¬ cycle_reachable (chain_setitem self key value) key →
   ∃ k, __setitem__ self key value = (Raise (UnknownDependency k), self)) ∧
  (∀ self', __setitem__ self key value = (Return tt, self') →
     self' = chain_setitem self key value ∧ closed_from self' key ∧
     (no_dangling self → no_dangling self')) ∧
  (∀ callable iscoroutinefunction annotations (di : TinyDI.TinyDI)
     (candidate : TinyDI.Registrable),
     let factory := match candidate with
                    | TinyDI.AsScope s => func s
                    | TinyDI.AsCallable f => f
                    end in
     callable key = true →
     (∃ k, k ∈ (annotations factory).*2 ∧
           chain_lookup (maps (TinyDI._deps di)) k = None) →
     ∃ k, k ∈ (annotations factory).*2 ∧
          chain_lookup (maps (TinyDI._deps di)) k = None ∧
          TinyDI.__setitem__ callable iscoroutinefunction annotations di key
            candidate = (Raise (UnknownDependency k), di)).
Proof.
  pose proof (setitem_cases self key value) as H. simpl in H. split_and!.
  - intros Hncl.
    destruct (__setitem__ self key value) as [[[]|e|] self'] eqn:E;
      [|destruct e as [k|msg|]|]; try done.
    + by destruct H as (_ & _ & H).
    + destruct H as (-> & Hr & Hk). eexists. split; [done|]. left. by exists k.
    + destruct H as (-> & -> & Hc). eexists. split; [done|]. by right.
  - intros Hncl Hncy.
    destruct (__setitem__ self key value) as [[[]|e|] self'] eqn:E;
      [|destruct e as [k|msg|]|]; try done.
    + by destruct H as (_ & _ & H).
    + destruct H as (-> & Hr & Hk). by exists k.
    + by destruct H as (_ & _ & Hc).
  - intros self' E. rewrite E in H. destruct H as (-> & _ & Hcl).
    split_and!; [done..|]. intros Hnd. by apply no_dangling_setitem.
  - intros callable isco annotations di candidate factory Hcall Habs.
    apply get_factories_unknown in Habs as (k & Hk & Hn & Hg).
    exists k. split_and!; [done..|].
    unfold TinyDI.__setitem__, TinyDI._get_factories_for_func. rewrite Hcall.
    subst factory. destruct candidate; cbn [negb func TinyDI.default_scope_class];
      by rewrite Hg.
Qed.

Lemma setitem_requires_closure_witness :
  ¬ closed_from (chain_setitem empty_storage 1 unknown_then_self) 1 ∧
  ∃ e, __setitem__ empty_storage 1 unknown_then_self = (Raise e, empty_storage).
Proof.
  assert (H : ¬ closed_from (chain_setitem empty_storage 1 unknown_then_self) 1).
  { intros Hc. destruct (Hc 7) as [d Hd]; [|discriminate Hd].
    apply rtc_once. exists unknown_then_self. split; [done|]. simpl.
    by repeat constructor. }
  split; [exact H|].
  destruct (proj1 (setitem_requires_closure empty_storage 1 unknown_then_self) H)
    as (e & He & _).
  by exists e.
Defined.

(** C10 as stated fails: the candidate [self_then_unknown] names the
    unregistered key [7], and its registration raises the [InvalidOperation]
    of a cycle, not [UnknownDependency]. *)
Lemma setitem_self_before_unknown :
  ¬ (∀ (self : DepStorage) (key : Key) (value : Dependency),
       (∃ k, rtc (edge (chain_setitem self key value)) key k ∧
             node (chain_setitem self key value) k = None) →
       ∃ k, __setitem__ self key value = (Raise (UnknownDependency k), self)).
Proof.
  intros H. destruct (H empty_storage 1 self_then_unknown) as [k Hk].
  - exists 7. split; [|done]. apply rtc_once. exists self_then_unknown.
    split; [done|]. simpl. by repeat constructor.
  - vm_compute in Hk. discriminate.
Qed.

(** ** The resolution walks *)

Lemma eff_bind_unfold {A B} (m : Eff A) (k : A → Eff B) w :
  (x ← m ; k x) w =
  match m w with
  | (Return a, w') => k a w'
  | (Raise e, w') => (Raise e, w')
  | (Exhausted, w') => (Exhausted, w')
  end.
Proof. reflexivity. Qed.

Lemma NoDup_length_size (X : gset nat) (l : list nat) :
  NoDup l → (∀ x, x ∈ l → x ∈ X) → length l ≤ size X.
Proof.
  intros Hnd Hin. apply submseteq_length, NoDup_submseteq; [done|].
  intros x Hx. apply elem_of_elements. auto.
Qed.

Section walk.
Variable self : DepStorage.

Lemma edge_of_kwarg key dep kw :
  node self key = Some dep → kw ∈ subdeps dep → edge self key (kw_func kw).
Proof.
  intros Hn Hk. exists dep. split; [done|]. apply list_elem_of_fmap. by exists kw.
Qed.

Lemma edge_inv key dep c :
  node self key = Some dep → edge self key c →
  ∃ kw, kw ∈ subdeps dep ∧ c = kw_func kw.
Proof.
  intros Hn (dep' & Hd & Hc). rewrite Hn in Hd. injection Hd as <-.
  apply list_elem_of_fmap in Hc as (kw & -> & Hkw). by exists kw.
Qed.

Lemma async_reachable_inv key dep :
  node self key = Some dep → async_reachable self key →
  is_async (scope dep) = true ∨
  ∃ kw, kw ∈ subdeps dep ∧ async_reachable self (kw_func kw).
Proof.
  intros Hn (v & d & Hr & Hv & Ha). destruct Hr as [|x y z Hxy Hyz].
  - left. congruence.
  - right. destruct (edge_inv _ _ _ Hn Hxy) as (kw & Hkw & ->).
    exists kw. split; [done|]. by exists z, d.
Qed.

Lemma async_reachable_step key c :
  edge self key c → async_reachable self c → async_reachable self key.
Proof.
  intros He (v & d & Hr & H). exists v, d. split; [|done]. eapply rtc_l; eauto.
Qed.

Lemma closed_from_intro key dep :
  node self key = Some dep →
  (∀ kw, kw ∈ subdeps dep → closed_from self (kw_func kw)) →
  closed_from self key.
Proof.
  intros Hn Hc v Hr. destruct Hr as [|x y z Hxy Hyz]; [by rewrite Hn|].
  destruct (edge_inv _ _ _ Hn Hxy) as (kw & Hkw & ->). by apply (Hc kw).
Qed.

Lemma unknown_below_step key c e :
  edge self key c → unknown_below self c e → unknown_below self key e.
Proof.
  intros He (k & -> & Hr & Hk). exists k. split_and!; [done| |done].
  eapply rtc_l; eauto.
Qed.

Lemma sync_loop_spec key dep (dfs : PartResolvedDependency → Eff Resolution) :
  node self key = Some dep →
  (∀ k d w, node self k = Some d → sync_dfs_post self k d (dfs (partially_resolved d) w)) →
  ∀ l d w, l ⊆ subdeps dep →
    sync_loop_post self l d (for_loop (sync_step self dfs) l d w).
Proof.
  intros Hn Hdfs. induction l as [|kw l IH]; intros d w Hl.
  { unfold sync_loop_post. simpl. split_and!; try done.
    - intros kw Hk. by apply elem_of_nil in Hk.
    - intros ?. split; [done|]. intros kw Hk. by apply elem_of_nil in Hk.
    - intros ?. by left. }
  assert (Hkw : kw ∈ subdeps dep) by (apply Hl; left).
  assert (Hl' : l ⊆ subdeps dep) by (intros x ?; apply Hl; by right).
  cbn [for_loop]. rewrite eff_bind_unfold. unfold sync_step at 1.
  rewrite eff_bind_unfold. unfold pure_outcome at 1. rewrite getitem_node.
  destruct (node self (kw_func kw)) as [depc|] eqn:Hc.
  2:{ unfold sync_loop_post. simpl. exists kw. split; [left|]. by exists (kw_func kw). }
  rewrite eff_bind_unfold. pose proof (Hdfs _ _ w Hc) as Hp. unfold sync_dfs_post in Hp.
  destruct (dfs (partially_resolved depc) w) as [[[p|v]|e|] w1]; simpl in Hp.
  - (* the kwarg stays pending *)
    destruct Hp as (Hcl & Ha & _). unfold mret, Eff_ret. cbv beta iota.
    match goal with |- context [for_loop _ l ?d' w1] =>
      specialize (IH d' w1 Hl'); destruct (for_loop _ l d' w1) as [[d2|e|] w2] end;
      unfold sync_loop_post in *; simpl in *; [|destruct IH as (kw' & ? & ?); exists kw'; split; [by right|done]|done].
    destruct IH as (H1 & H2 & H3 & H4 & H5). split_and!; [done|done| | |].
    + intros kw' [->|?]%elem_of_cons; auto.
    + intros E. apply H4 in E as [E _]. by destruct (under_resolving d).
    + intros _. right. exists kw. split; [left|done].
  - (* the kwarg collapsed into a value *)
    destruct Hp as (Hcl & Ha). unfold mret, Eff_ret. cbv beta iota.
    match goal with |- context [for_loop _ l ?d' w1] =>
      specialize (IH d' w1 Hl'); destruct (for_loop _ l d' w1) as [[d2|e|] w2] end;
      unfold sync_loop_post in *; simpl in *; [|destruct IH as (kw' & ? & ?); exists kw'; split; [by right|done]|done].
    destruct IH as (H1 & H2 & H3 & H4 & H5). split_and!; [done|done| | |].
    + intros kw' [->|?]%elem_of_cons; auto.
    + intros E. apply H4 in E as [E E']. split; [done|].
      intros kw' [->|?]%elem_of_cons; auto.
    + intros E. apply H5 in E as [E|(kw' & ? & ?)]; [by left|].
      right. exists kw'. split; [by right|done].
  - unfold sync_loop_post. simpl. exists kw. split; [left|done].
  - done.
Qed.

Lemma sync_dfs_spec fuel : ∀ key dep w,
  node self key = Some dep →
  sync_dfs_post self key dep (resolve_sync_dfs self fuel (partially_resolved dep) false w).
Proof.
  induction fuel as [|fuel IH]; intros key dep w Hn; [done|].
  cbn [resolve_sync_dfs]. rewrite eff_bind_unfold.
  pose proof (sync_loop_spec key dep (λ d, resolve_sync_dfs self fuel d false) Hn IH
                (subdeps dep) (partially_resolved dep) w (reflexivity _)) as Hl.
  cbn [unresolved partially_resolved].
  destruct (for_loop _ (subdeps dep) (partially_resolved dep) w) as [[d'|e|] w1];
    unfold sync_loop_post, sync_dfs_post in *; simpl in Hl.
  - destruct Hl as (Hs & _ & Hcl & He & Hne).
    assert (Hclosed : closed_from self key) by by eapply closed_from_intro.
    unfold p_is_async, is_resolved. cbn [p_scope unresolved under_resolving].
    rewrite Hs. cbn [p_scope partially_resolved].
    destruct (is_async (scope dep)) eqn:Ha; cbn [orb].
    { simpl. split_and!; [done| |done..]. exists key, dep. by split. }
    destruct (under_resolving d') as [|pk pks] eqn:Hu; cbn [negb].
    + rewrite eff_bind_unfold. unfold p_call, p_is_async, is_resolved.
      cbn [p_scope unresolved under_resolving]. rewrite Ha. cbn [orb negb].
      unfold total. destruct (call _ _ w1) as [v w2]. simpl. split; [done|].
      intros [Hk|(kw & Hkw & Hk)]%(async_reachable_inv _ _ Hn); [congruence|].
      destruct He as [_ He]; [done|]. by apply (He kw).
    + simpl. split_and!; [done| |done..].
      destruct Hne as [?|(kw & Hkw & Hk)]; [done..|].
      eapply async_reachable_step; [|done]. by eapply edge_of_kwarg.
  - destruct Hl as (kw & Hkw & Hk). simpl.
    eapply unknown_below_step; [|done]. by eapply edge_of_kwarg.
  - done.
Qed.

Lemma sync_top_spec fuel key dep w :
  node self key = Some dep →
  sync_top_post self key dep (resolve_sync_dfs self (S fuel) (partially_resolved dep) true w).
Proof.
  intros Hn. cbn [resolve_sync_dfs]. rewrite eff_bind_unfold.
  pose proof (sync_loop_spec key dep (λ d, resolve_sync_dfs self fuel d false) Hn
                (sync_dfs_spec fuel) (subdeps dep) (partially_resolved dep) w
                (reflexivity _)) as Hl.
  cbn [unresolved partially_resolved].
  destruct (for_loop _ (subdeps dep) (partially_resolved dep) w) as [[d'|e|] w1];
    unfold sync_loop_post, sync_top_post in *; simpl in Hl |- *.
  - destruct Hl as (Hs & _ & Hcl & He & Hne). split_and!; [|done..| |].
    + by eapply closed_from_intro.
    + intros E. by apply He.
    + intros E. by destruct (Hne E).
  - destruct Hl as (kw & Hkw & Hk).
    eapply unknown_below_step; [|done]. by eapply edge_of_kwarg.
  - done.
Qed.

Lemma sync_dfs_fuel fuel : ∀ key dep path top w,
  node self key = Some dep → ¬ cycle_reachable self key →
  NoDup path → (∀ a, a ∈ path → a ∈ keys self ∧ tc (edge self) a key) →
  size (keys self) < fuel + length path →
  (resolve_sync_dfs self fuel (partially_resolved dep) top w).1 ≠ Exhausted.
Proof.
  induction fuel as [|fuel IH]; intros key dep path top w Hn Hcy Hnd Hp Hsz.
  all: assert (Hfresh : key ∉ path).
  1,3: intros Hin; apply Hcy; exists key; split; [done|]; by apply Hp.
  all: assert (Hlen : length (key :: path) ≤ size (keys self)).
  1,3: apply NoDup_length_size; [by constructor|];
       intros x [->|Hx]%elem_of_cons; [by eapply node_keys|by apply Hp].
  { simpl in *. lia. }
  cbn [resolve_sync_dfs]. rewrite eff_bind_unfold. cbn [unresolved partially_resolved].
  assert (Hloop : ∀ l d w, l ⊆ subdeps dep →
            (for_loop (sync_step self (λ d, resolve_sync_dfs self fuel d false)) l d w).1
            ≠ Exhausted).
  { induction l as [|kw l IHl]; intros d w0 Hl; [done|].
    assert (Hkw : kw ∈ subdeps dep) by (apply Hl; left).
    assert (Hl' : l ⊆ subdeps dep) by (intros x ?; apply Hl; by right).
    pose proof (edge_of_kwarg _ _ _ Hn Hkw) as He.
    cbn [for_loop]. rewrite eff_bind_unfold. unfold sync_step at 1.
    rewrite eff_bind_unfold. unfold pure_outcome at 1. rewrite getitem_node.
    destruct (node self (kw_func kw)) as [depc|] eqn:Hc; [|done].
    rewrite eff_bind_unfold.
    assert (Hsub : (resolve_sync_dfs self fuel (partially_resolved depc) false w0).1
                   ≠ Exhausted).
    { apply (IH (kw_func kw) depc (key :: path)); [done| |by constructor| |simpl; lia].
      - intros Hc'. apply Hcy. by eapply cycle_reachable_step.
      - intros a [->|Ha]%elem_of_cons.
        + split; [by eapply node_keys|by apply tc_once].
        + destruct (Hp a Ha) as [? ?]. split; [done|]. by eapply tc_r. }
    destruct (resolve_sync_dfs self fuel (partially_resolved depc) false w0)
      as [[[p|v]|e|] w1]; [| |done..]; unfold mret, Eff_ret; cbv beta iota; by apply IHl. }
  specialize (Hloop (subdeps dep) (partially_resolved dep) w (reflexivity _)).
  destruct (for_loop _ (subdeps dep) (partially_resolved dep) w) as [[d'|e|] w1];
    [|done..].
  destruct top; [done|].
  destruct (_ || _); [done|]. rewrite eff_bind_unfold. unfold p_call.
  destruct (_ || _); [done|]. unfold total. by destruct (call _ _ _).
Qed.

Lemma sync_walk_terminates key dep top w :
  node self key = Some dep → ¬ cycle_reachable self key →
  (resolve_sync_dfs self (walk_fuel self) (partially_resolved dep) top w).1 ≠ Exhausted.
Proof.
  intros Hn Hcy. apply (sync_dfs_fuel _ key dep [] top w); [done..|constructor| |].
  - intros a Ha. by apply elem_of_nil in Ha.
  - unfold walk_fuel. simpl. lia.
Qed.
End walk.

Lemma resolve_async_dfs_eq sc res under unres top :
  resolve_async_dfs (mkPartial sc res under unres) top =
  (res ← complete_pending under res ;
   match top return Eff (async_result top) with
   | true => mret (mkPartial sc res [] unres)
   | false => p_await (mkPartial sc res [] unres)
   end).
Proof. reflexivity. Qed.



(** What phase 1 answers at the top of a walk. *)
Lemma resolve_sync_cases self key w :
  match _resolve_sync self key w with
  | (Return p, _) =>
      ∃ dep, node self key = Some dep ∧ closed_from self key ∧
        p_scope p = scope dep ∧ unresolved p = [] ∧
        (under_resolving p = [] →
           ∀ kw, kw ∈ subdeps dep → ¬ async_reachable self (kw_func kw)) ∧
        (under_resolving p ≠ [] →
           ∃ kw, kw ∈ subdeps dep ∧ async_reachable self (kw_func kw))
  | (Raise e, _) => unknown_below self key e
  | (Exhausted, _) => ¬ ¬ cycle_reachable self key
  end.
Proof.
  unfold _resolve_sync. rewrite eff_bind_unfold. unfold pure_outcome.
  rewrite getitem_node. destruct (node self key) as [dep|] eqn:Hn.
  2:{ by exists key. }
  pose proof (sync_top_spec self (size (keys self)) key dep w Hn) as Hs.
  unfold sync_top_post in Hs. fold (walk_fuel self) in Hs.
  destruct (resolve_sync_dfs self (walk_fuel self) (partially_resolved dep) true w)
    as [[p|e|] w1] eqn:E; simpl in Hs.
  - exists dep. by split.
  - done.
  - intros Hno.
    pose proof (sync_walk_terminates self key dep true w Hn Hno) as Ht.
    by rewrite E in Ht.
Qed.






(** ** Unknown keys *)








(** ** Phase 1 *)

(** C2.  In phase 1, once the loop over the kwargs of a node has returned:
    the top-level call returns the partial node and invokes nothing; a call
    below the top materializes the node at once through its scope policy
    iff its own factory is synchronous and no kwarg is pending, and returns
    the partial node without invoking anything otherwise.  No kwarg is
    pending iff no asynchronous factory can be reached from a kwarg. *)
Theorem phase1_collapse (self : DepStorage) (fuel : nat) (key : Key)
    (dep : Dependency) (w : World) (d' : PartResolvedDependency) (w1 : World) :
  node self key = Some dep →
  for_loop (sync_step self (λ d, resolve_sync_dfs self fuel d false))
           (subdeps dep) (partially_resolved dep) w = (Return d', w1) →
  let node' := mkPartial (scope dep) (resolved d') (under_resolving d') [] in
  resolve_sync_dfs self (S fuel) (partially_resolved dep) true w = (Return node', w1) ∧
  (is_async (scope dep) = false ∧ under_resolving d' = [] →
     resolve_sync_dfs self (S fuel) (partially_resolved dep) false w =
     (Return (Value (call (scope dep) (resolved d') w1).1),
      (call (scope dep) (resolved d') w1).2)) ∧
  (is_async (scope dep) = true ∨ under_resolving d' ≠ [] →
     resolve_sync_dfs self (S fuel) (partially_resolved dep) false w =
     (Return (Partial node'), w1)) ∧
  (under_resolving d' = [] ↔
     ∀ kw, kw ∈ subdeps dep → ¬ async_reachable self (kw_func kw)).
Proof.
  intros Hn Hloop node'.
  pose proof (sync_loop_spec self key dep (λ d, resolve_sync_dfs self fuel d false) Hn
                (sync_dfs_spec self fuel) (subdeps dep) (partially_resolved dep) w
                (reflexivity _)) as Hl.
  rewrite Hloop in Hl. unfold sync_loop_post in Hl. simpl in Hl.
  destruct Hl as (Hs & _ & _ & He & Hne).
  cbn [resolve_sync_dfs]. rewrite !eff_bind_unfold.
  cbn [unresolved partially_resolved]. rewrite Hloop.
  unfold p_is_async, is_resolved. cbn [p_scope unresolved under_resolving].
  rewrite Hs. cbn [p_scope partially_resolved]. fold node'. split_and!.
  - done.
  - intros [Ha Hu]. rewrite Ha, Hu. cbn [orb negb]. rewrite eff_bind_unfold.
    unfold p_call, p_is_async, is_resolved. subst node'. rewrite Hu.
    cbn [p_scope unresolved under_resolving resolved]. rewrite Ha. cbn [orb negb].
    unfold total. by destruct (call _ _ _).
  - intros [Ha|Hu].
    + by rewrite Ha.
    + destruct (under_resolving d'); [done|]. by rewrite orb_true_r.
  - split; [intros H; by apply He|]. intros H.
    destruct (under_resolving d') as [|pk pks] eqn:Hu; [done|].
    destruct Hne as [?|(kw & Hkw & Hk)]; [done..|]. by destruct (H kw).
Qed.

Lemma phase1_collapse_witness :
  node chain_storage 2 = Some (mkDependency (plain 2) [needs "a" 1]) ∧
  resolve_sync_dfs chain_storage 2
    (partially_resolved (mkDependency (plain 2) [needs "a" 1])) true fresh_world =
  (Return (mkPartial (plain 2) [("a"%string, Built 0 1 [])] [] []),
   mkWorld [mkEvent (plain 1) false] []).
Proof.
  split; [reflexivity|].
  apply (phase1_collapse chain_storage 1 2 (mkDependency (plain 2) [needs "a" 1])
           fresh_world
           (mkPartial (plain 2) [("a"%string, Built 0 1 [])] [] [needs "a" 1])
           (mkWorld [mkEvent (plain 1) false] [])); reflexivity.
Defined.

(** ** The order of the kwargs *)




(** ** [TinyDI.override] *)

Section tinydi.
Variable callable : Key → bool.
Variable iscoroutinefunction : Key → bool.
Variable annotations : Key → list (string * Key).

Lemma tinydi_setitem_ancestors self key value :
  ancestors (TinyDI._deps (TinyDI.__setitem__ callable iscoroutinefunction annotations self key value).2)
  = ancestors (TinyDI._deps self).
Proof.
  unfold TinyDI.__setitem__. destruct (negb _); [done|].
  by destruct (TinyDI._get_factories_for_func _ _ _) as [?|?|].
Qed.

Lemma register_all_ancestors regs : ∀ self,
  ancestors (TinyDI._deps (TinyDI.register_all callable iscoroutinefunction annotations regs self).2)
  = ancestors (TinyDI._deps self).
Proof.
  induction regs as [|[key value] regs IH]; intros self; [done|].
  cbn [TinyDI.register_all].
  pose proof (tinydi_setitem_ancestors self key value) as H.
  destruct (TinyDI.__setitem__ _ _ _ self key value) as [[[]|e|] self'];
    simpl in H; [|done..].
  by rewrite IH.
Qed.
End tinydi.

(** C9.  [override] around any block of registrations leaves the container
    as it was before: the storage after the block is the storage before it,
    so [__contains__], [get] and [aget] answer the same on every key.
    Inside the block the ancestors of the child layer are the layers of the
    storage, untouched.  The same holds of a registration in a child layer
    of a [DepStorage]. *)
Theorem override_restores (callable iscoroutinefunction : Key → bool)
    (annotations : Key → list (string * Key)) (self : TinyDI.TinyDI)
    (regs : list (Key * TinyDI.Registrable)) :
  let body := TinyDI.register_all callable iscoroutinefunction annotations regs in
  let inside := (body (TinyDI.mkTinyDI (new_child (TinyDI._deps self) ∅))).2 in
  let after := (TinyDI.override body self).2 in
  ancestors (TinyDI._deps inside) = maps (TinyDI._deps self) ∧
  after = self ∧
  (∀ key, TinyDI.__contains__ after key = TinyDI.__contains__ self key) ∧
  (∀ key w, TinyDI.get after key w = TinyDI.get self key w) ∧
  (∀ key w, TinyDI.aget after key w = TinyDI.aget self key w) ∧
  (∀ (store : DepStorage) key value,
     ancestors (__setitem__ (new_child store ∅) key value).2 = maps store ∧
     parents (__setitem__ (new_child store ∅) key value).2 = store).
Proof.
  intros body inside after.
  assert (Hin : ancestors (TinyDI._deps inside) = maps (TinyDI._deps self)).
  { unfold inside, body. by rewrite register_all_ancestors. }
  assert (Hafter : after = self).
  { unfold after, TinyDI.override. fold inside.
    destruct (body _) as [r self'] eqn:E. simpl in inside. subst inside.
    simpl. unfold parents. rewrite Hin. by destruct self as [[m ms]]. }
  split_and!; [done..| | | |]; try (intros; by rewrite Hafter).
  intros [m ms] key value. unfold __setitem__.
  by destruct (_has_cycle _ key) as [[]|e|].
Qed.

(** ** Scope policies *)

Lemma invocations_invoke s s' a kw w :
  invocations s (invoke s' a kw w).2 =
  (if decide (s' = s) then 1 else 0) + invocations s w.
Proof.
  unfold invocations, invoke. cbn [snd trace].
  rewrite filter_app, length_app. rewrite filter_cons, filter_nil. cbn [ev_scope].
  destruct (decide (s' = s)); simpl; lia.
Qed.

Lemma materialize_cached a s kw w v :
  kind s = Singleton → cached w s = Some v → materialize a s kw w = (v, w).
Proof. intros Hk Hc. unfold materialize. by rewrite Hk, Hc. Qed.

Lemma materialize_keeps_cache a s' kw w s v :
  cached w s = Some v → cached (materialize a s' kw w).2 s = Some v.
Proof.
  intros Hc. unfold materialize. destruct (kind s'); [done|].
  destruct (cached w s') as [v'|] eqn:E; [done|].
  unfold cached in *. cbn [invoke snd cache cache_lookup].
  destruct (decide (s' = s)) as [->|]; [congruence|done].
Qed.

Lemma materialize_invocations_cached a s' kw w s v :
  kind s = Singleton → cached w s = Some v →
  invocations s (materialize a s' kw w).2 = invocations s w.
Proof.
  intros Hk Hc. unfold materialize. destruct (kind s') eqn:Hk'.
  - cbv iota. rewrite invocations_invoke. destruct (decide (s' = s)); [congruence|done].
  - cbv iota. destruct (cached w s') as [v'|] eqn:E; [done|].
    pose proof (invocations_invoke s s' a kw w) as Hi.
    destruct (decide (s' = s)); [congruence|]. simpl in Hi. rewrite <- Hi. done.
Qed.

Lemma run_requests_cached rs : ∀ w s v,
  kind s = Singleton → cached w s = Some v →
  cached (run_requests rs w) s = Some v ∧
  invocations s (run_requests rs w) = invocations s w.
Proof.
  induction rs as [|r rs IH]; intros w s v Hk Hc; [done|].
  cbn [run_requests].
  destruct (IH (materialize (rq_awaited r) (rq_scope r) (rq_kwargs r) w).2 s v Hk)
    as [H1 H2]; [by apply materialize_keeps_cache|].
  split; [done|]. rewrite H2. by eapply materialize_invocations_cached.
Qed.

Lemma materialize_trace_le a s kw w :
  length (trace w) ≤ length (trace (materialize a s kw w).2).
Proof.
  unfold materialize. destruct (kind s).
  - cbn. rewrite length_app. lia.
  - destruct (cached w s); [done|]. cbn. rewrite length_app. lia.
Qed.

Lemma run_requests_trace_le rs : ∀ w,
  length (trace w) ≤ length (trace (run_requests rs w)).
Proof.
  induction rs as [|r rs IH]; intros w; [done|]. cbn [run_requests].
  etrans; [|apply IH]. apply materialize_trace_le.
Qed.

Lemma two_materializations (s : Scope) (w : World) (a1 a2 : bool)
    (kw1 kw2 : list (string * value)) (between : list Request) :
  let first := materialize a1 s kw1 w in
  let w2 := run_requests between first.2 in
  let second := materialize a2 s kw2 w2 in
  (kind s = Singleton → cached w s = None →
     second.1 = first.1 ∧ second.2 = w2 ∧
     invocations s second.2 = 1 + invocations s w) ∧
  (kind s = Singleton → ∀ v, cached w s = Some v →
     first.1 = v ∧ second.1 = v ∧ invocations s second.2 = invocations s w) ∧
  (kind s = Factory →
     first.1 ≠ second.1 ∧
     invocations s first.2 = 1 + invocations s w ∧
     invocations s second.2 = 1 + invocations s w2).
Proof.
  intros first w2 second. split_and!.
  - intros Hk Hc.
    assert (Hf : cached first.2 s = Some first.1).
    { unfold first, materialize. rewrite Hk, Hc. unfold cached. cbn.
      by destruct (decide (s = s)). }
    assert (Hi : invocations s first.2 = 1 + invocations s w).
    { unfold first, materialize. rewrite Hk, Hc.
      change (invocations s (invoke s a1 kw1 w).2 = 1 + invocations s w).
      rewrite invocations_invoke. by destruct (decide (s = s)). }
    destruct (run_requests_cached between first.2 s first.1 Hk Hf) as [H1 H2].
    fold w2 in H1, H2. unfold second.
    rewrite (materialize_cached a2 s kw2 w2 first.1 Hk H1). simpl.
    split_and!; [done..|]. by rewrite H2, Hi.
  - intros Hk v Hc.
    assert (Hfirst : first = (v, w)) by by apply materialize_cached.
    assert (Hw2 : w2 = run_requests between w) by (unfold w2; by rewrite Hfirst).
    destruct (run_requests_cached between w s v Hk Hc) as [H1 H2].
    rewrite <- Hw2 in H1, H2. unfold second.
    rewrite (materialize_cached a2 s kw2 w2 v Hk H1), Hfirst. by simpl.
  - intros Hk.
    assert (Hfirst : first = invoke s a1 kw1 w).
    { unfold first, materialize. by rewrite Hk. }
    assert (Hsecond : second = invoke s a2 kw2 w2).
    { unfold second, materialize. by rewrite Hk. }
    rewrite Hsecond, Hfirst, !invocations_invoke.
    destruct (decide (s = s)); [|done]. split_and!; [|done..].
    cbn. intros [= E].
    pose proof (run_requests_trace_le between first.2) as Hle.
    fold w2 in Hle. rewrite Hfirst in Hle. cbn in Hle.
    rewrite length_app in Hle. simpl in Hle. lia.
Qed.

(** C7.  A singleton-like scope materialized twice, with any other
    materializations in between and whichever paths ask for it, returns
    the identical object both times and runs its factory exactly once (not
    at all when the value was cached before); a [Factory] scope runs its
    factory anew at every materialization and the two objects differ.  In
    a diamond, the two paths to a singleton [1] receive the same object
    [Built 0 1 []] from one invocation; with a [Factory] scope they receive
    the objects of two invocations. *)
Theorem scope_policy_lifetimes :
  (∀ (s : Scope) (w : World) (a1 a2 : bool) (kw1 kw2 : list (string * value))
     (between : list Request),
     let first := materialize a1 s kw1 w in
     let w2 := run_requests between first.2 in
     let second := materialize a2 s kw2 w2 in
     (kind s = Singleton → cached w s = None →
        second.1 = first.1 ∧ second.2 = w2 ∧
        invocations s second.2 = 1 + invocations s w) ∧
     (kind s = Singleton → ∀ v, cached w s = Some v →
        first.1 = v ∧ second.1 = v ∧ invocations s second.2 = invocations s w) ∧
     (kind s = Factory →
        first.1 ≠ second.1 ∧
        invocations s first.2 = 1 + invocations s w ∧
        invocations s second.2 = 1 + invocations s w2)) ∧
  resolve (diamond (singleton 1)) 4 fresh_world =
    (Return (Built 3 4 [("b"%string, Built 1 2 [("a"%string, Built 0 1 [])]);
                        ("c"%string, Built 2 3 [("a"%string, Built 0 1 [])])]),
     mkWorld [mkEvent (singleton 1) false; mkEvent (plain 2) false;
              mkEvent (plain 3) false; mkEvent (plain 4) false]
             [(singleton 1, Built 0 1 [])]) ∧
  resolve (diamond (plain 1)) 4 fresh_world =
    (Return (Built 4 4 [("b"%string, Built 1 2 [("a"%string, Built 0 1 [])]);
                        ("c"%string, Built 3 3 [("a"%string, Built 2 1 [])])]),
     mkWorld [mkEvent (plain 1) false; mkEvent (plain 2) false;
              mkEvent (plain 1) false; mkEvent (plain 3) false;
              mkEvent (plain 4) false] []).
Proof.
  split_and!; [apply two_materializations|vm_compute; reflexivity..].
Qed.

Lemma scope_policy_lifetimes_witness :
  kind (singleton 1) = Singleton ∧ cached fresh_world (singleton 1) = None ∧
  invocations (singleton 1)
    (materialize true (singleton 1) []
       (run_requests [mkRequest (plain 2) false []; mkRequest (singleton 1) false []]
          (materialize false (singleton 1) [] fresh_world).2)).2 = 1.
Proof.
  split; [reflexivity|]. split; [reflexivity|].
  exact (proj2 (proj2 (proj1 (proj1 scope_policy_lifetimes (singleton 1) fresh_world
           false true [] []
           [mkRequest (plain 2) false []; mkRequest (singleton 1) false []])
           eq_refl eq_refl))).
Defined.


(** ** Synchronous and asynchronous access in [TinyDI] *)

Lemma d_is_async_eq sc kw :
  TinyDI.d_is_async (TinyDI.mkDep sc kw) = is_async sc || any_async kw.
Proof. reflexivity. Qed.

Lemma d_call_eq sc kw :
  TinyDI.d_call (TinyDI.mkDep sc kw) =
  (kwargs ← call_each kw ; total (call sc kwargs)).
Proof. reflexivity. Qed.

Lemma d_acall_eq sc kw :
  TinyDI.d_acall (TinyDI.mkDep sc kw) =
  (kwargs ← acall_each kw ; total (acall sc kwargs)).
Proof. reflexivity. Qed.

Lemma d_size_sub n sub kw sc :
  (n, sub) ∈ kw → d_size sub < d_size (TinyDI.mkDep sc kw).
Proof.
  intros Hin. cbn [d_size]. apply Nat.lt_succ_r.
  induction kw as [|[n' sub'] kw IH]; [by apply elem_of_nil in Hin|].
  apply elem_of_cons in Hin as [[= <- <-]|Hin]; [lia|].
  apply IH in Hin. lia.
Qed.





(** * Further properties *)

(** ** Registration: what it stores and when it succeeds *)

Lemma setitem_accepted self key value :
  closed_from (chain_setitem self key value) key →
  ¬ cycle_reachable (chain_setitem self key value) key →
  __setitem__ self key value = (Return tt, chain_setitem self key value).
Proof.
  intros Hcl Hcy. pose proof (setitem_cases self key value) as H. simpl in H.
  destruct (__setitem__ self key value) as [[[]|e|] self'] eqn:E;
    [|destruct e as [k|msg|]|]; try done.
  - by destruct H as (-> & _).
  - destruct H as (_ & Hr & Hk). apply Hcl in Hr. rewrite Hk in Hr. by destruct Hr.
  - by destruct H as (_ & _ & H).
Qed.

Lemma setitem_return_iff self key value :
  (__setitem__ self key value).1 = Return tt ↔
  closed_from (chain_setitem self key value) key ∧
  ¬ cycle_reachable (chain_setitem self key value) key.
Proof.
  pose proof (setitem_cases self key value) as H. simpl in H. split.
  - destruct (__setitem__ self key value) as [[[]|e|] self']; [|done..].
    intros _. by destruct H as (_ & ? & ?).
  - intros [Hcl Hcy]. by rewrite setitem_accepted.
Qed.

(** X1.  [DepStorage.__setitem__] succeeds exactly when, in the storage the
    insertion would give, every key reachable from the candidate key is
    registered and no cycle can be reached from it; it then stores the
    candidate in the innermost layer.  In every other case the storage is
    left as it was and the exception is the [InvalidOperation] of a cycle or
    an [UnknownDependency]. *)
Theorem setitem_succeeds_iff (self : DepStorage) (key : Key) (value : Dependency) :
  ((__setitem__ self key value).1 = Return tt ↔
     closed_from (chain_setitem self key value) key ∧
     ¬ cycle_reachable (chain_setitem self key value) key) ∧
  ((__setitem__ self key value).1 = Return tt →
     (__setitem__ self key value).2 = chain_setitem self key value) ∧
  ((__setitem__ self key value).1 ≠ Return tt →
     (__setitem__ self key value).2 = self ∧
     ((__setitem__ self key value).1 = Raise (InvalidOperation cycle_message) ∨
      ∃ k, (__setitem__ self key value).1 = Raise (UnknownDependency k))).
Proof.
  pose proof (setitem_cases self key value) as H. simpl in H. split_and!.
  - apply setitem_return_iff.
  - destruct (__setitem__ self key value) as [[[]|e|] self']; [|done..].
    intros _. by destruct H.
  - destruct (__setitem__ self key value) as [[[]|e|] self'];
      [done|destruct e as [k|msg|]|]; try done; intros _.
    + destruct H as (-> & _). split; [done|]. right. by exists k.
    + destruct H as (-> & -> & _). split; [done|]. by left.
Qed.

(** X2.  After a successful [__setitem__] the key looks up to the value just
    stored, every other key looks up as before, and only the innermost layer
    changed: the ancestor layers are the same. *)
Theorem setitem_getitem_roundtrip (self self' : DepStorage) (key : Key)
    (value : Dependency) :
  __setitem__ self key value = (Return tt, self') →
  __getitem__ self' key = Return value ∧
  (∀ k, k ≠ key → __getitem__ self' k = __getitem__ self k) ∧
  innermost self' = <[key := value]> (innermost self) ∧
  ancestors self' = ancestors self.
Proof.
  intros E. pose proof (setitem_cases self key value) as H. simpl in H.
  rewrite E in H. destruct H as (-> & _). split_and!; [| |done..].
  - rewrite getitem_node, node_chain_setitem. by destruct (decide (key = key)).
  - intros k Hk. rewrite !getitem_node, node_chain_setitem.
    by destruct (decide (key = k)).
Qed.

Section after_insertion.
Variables (self : DepStorage) (key : Key) (value : Dependency).
#[local] Abbreviation after := (chain_setitem self key value).

Lemma edge_after_other k c : k ≠ key → edge after k c ↔ edge self k c.
Proof.
  intros Hk. unfold edge, after. setoid_rewrite node_chain_setitem.
  by destruct (decide (key = k)).
Qed.

Lemma tc_after_through_key a b :
  tc (edge after) a b →
  tc (edge self) a b ∨ (rtc (edge after) a key ∧ tc (edge after) key b).
Proof.
  induction 1 as [a b Hab|a c b Hac Hcb IH].
  - destruct (decide (a = key)) as [->|Hne].
    + right. split; [done|by apply tc_once].
    + left. apply tc_once. by apply edge_after_other.
  - destruct (decide (a = key)) as [->|Hne].
    + right. split; [done|]. by eapply tc_l.
    + apply edge_after_other in Hac as Hac'; [|done].
      destruct IH as [IH|[IH1 IH2]].
      * left. by eapply tc_l.
      * right. split; [|done]. by eapply rtc_l.
Qed.

Lemma rtc_self_to_key c : rtc (edge self) c key → rtc (edge after) c key.
Proof.
  revert c. apply rtc_ind_l; [done|]. intros a b Hab Hbc IH.
  destruct (decide (a = key)) as [->|Hne]; [done|].
  eapply rtc_l; [|done]. by apply edge_after_other.
Qed.

Lemma rtc_after_avoiding c v :
  (∀ u, rtc (edge self) c u → u ≠ key) →
  rtc (edge after) c v → rtc (edge self) c v.
Proof.
  intros Hav Hr. induction Hr as [|a b c Hab Hbc IH]; [done|].
  assert (Hab' : edge self a b).
  { apply edge_after_other; [|done]. by apply Hav. }
  eapply rtc_l; [done|]. apply IH. intros u Hu. apply Hav. by eapply rtc_l.
Qed.

Lemma tc_after_avoiding c v :
  (∀ u, rtc (edge self) c u → u ≠ key) →
  tc (edge after) c v → tc (edge self) c v.
Proof.
  intros Hav Hr. induction Hr as [a b Hab|a b c Hab Hbc IH].
  - apply tc_once. apply edge_after_other; [|done]. by apply Hav.
  - assert (Hab' : edge self a b).
    { apply edge_after_other; [|done]. by apply Hav. }
    eapply tc_l; [done|]. apply IH. intros u Hu. apply Hav. by eapply rtc_l.
Qed.

Lemma acyclic_after :
  acyclic self → ¬ cycle_reachable after key → acyclic after.
Proof.
  intros Hac Hcy k Hk. apply tc_after_through_key in Hk as [Hk|[H1 H2]].
  - by apply (Hac k).
  - apply Hcy. exists key. split; [done|]. by eapply tc_rtc_r.
Qed.
End after_insertion.

(** X3.  A successful [__setitem__] keeps the graph of the storage acyclic
    and free of dangling edges, and [_has_cycle] of the registered key
    answers [False] on the storage it leaves. *)
Theorem setitem_keeps_well_formed (self self' : DepStorage) (key : Key)
    (value : Dependency) :
  __setitem__ self key value = (Return tt, self') →
  (acyclic self → acyclic self') ∧
  (no_dangling self → no_dangling self') ∧
  _has_cycle self' key = Return false.
Proof.
  intros E. pose proof (setitem_cases self key value) as H. simpl in H.
  rewrite E in H. destruct H as (-> & Hcy & Hcl). split_and!.
  - intros Hac. by apply acyclic_after.
  - intros Hnd. by apply no_dangling_setitem.
  - destruct (has_cycle_closed _ _ Hcl) as [[] Hb]; [|done].
    by apply has_cycle_true in Hb.
Qed.

(** X4.  Registering again the value that was just registered under a key
    succeeds and leaves the storage unchanged. *)
Theorem setitem_idempotent (self self' : DepStorage) (key : Key) (value : Dependency) :
  __setitem__ self key value = (Return tt, self') →
  __setitem__ self' key value = (Return tt, self').
Proof.
  intros E. pose proof (setitem_cases self key value) as H. simpl in H.
  rewrite E in H. destruct H as (-> & Hcy & Hcl).
  assert (Heq : chain_setitem (chain_setitem self key value) key value
                = chain_setitem self key value).
  { unfold chain_setitem. cbn [innermost ancestors]. by rewrite insert_insert_eq. }
  rewrite <- Heq at 2. apply setitem_accepted; by rewrite Heq.
Qed.

(** X5.  A candidate with a kwarg whose target already reaches the candidate
    key in the storage (registering [Y] as requiring [X] when [X] requires
    [Y]) is rejected, and the storage, with the earlier registrations, is
    left as it was. *)
Theorem setitem_rejects_back_edge (self : DepStorage) (key : Key)
    (value : Dependency) (kw : InjectKWarg) :
  kw ∈ subdeps value → rtc (edge self) (kw_func kw) key →
  (__setitem__ self key value).1 ≠ Return tt ∧
  (__setitem__ self key value).2 = self.
Proof.
  intros Hkw Hr.
  assert (Hcy : cycle_reachable (chain_setitem self key value) key).
  { exists key. split; [done|]. eapply tc_rtc_r; [|by apply rtc_self_to_key].
    apply tc_once. exists value. split.
    - rewrite node_chain_setitem. by destruct (decide (key = key)).
    - apply list_elem_of_fmap. by exists kw. }
  pose proof (setitem_cases self key value) as H. simpl in H.
  destruct (__setitem__ self key value) as [[[]|e|] self'] eqn:E;
    [|destruct e as [k|msg|]|]; try done.
  - by destruct H as (_ & H & _).
  - by destruct H as (-> & _).
  - by destruct H as (-> & _).
Qed.

Lemma no_dangling_closed self c :
  no_dangling self → is_Some (node self c) → closed_from self c.
Proof.
  intros Hnd Hc v Hr. induction Hr as [|a b c Hab Hbc IH]; [done|].
  apply IH. by apply (Hnd a b).
Qed.

(** X6.  On an acyclic storage without dangling edges, a key that is not
    registered yet is accepted exactly when every target of the kwargs of
    the candidate is already registered. *)
Theorem setitem_new_key_iff (self : DepStorage) (key : Key) (value : Dependency) :
  acyclic self → no_dangling self → node self key = None →
  ((__setitem__ self key value).1 = Return tt ↔
   ∀ kw, kw ∈ subdeps value → is_Some (node self (kw_func kw))).
Proof.
  intros Hac Hnd Hfresh.
  assert (Hkey : node (chain_setitem self key value) key = Some value).
  { rewrite node_chain_setitem. by destruct (decide (key = key)). }
  rewrite setitem_return_iff. split.
  - intros [Hcl Hcy] kw Hkw.
    assert (He : edge (chain_setitem self key value) key (kw_func kw)).
    { exists value. split; [done|]. apply list_elem_of_fmap. by exists kw. }
    destruct (decide (key = kw_func kw)) as [Heq|Hne].
    + exfalso. apply Hcy. exists key. split; [done|]. apply tc_once.
      by rewrite <- Heq in He.
    + specialize (Hcl (kw_func kw) (rtc_once _ _ He)).
      rewrite node_chain_setitem in Hcl. by destruct (decide (key = kw_func kw)).
  - intros Hdeps.
    assert (Hchild : ∀ c, edge (chain_setitem self key value) key c →
              ∀ u, rtc (edge self) c u → is_Some (node self u) ∧ u ≠ key).
    { intros c (dep & Hd & Hc) u Hu. rewrite Hkey in Hd. injection Hd as <-.
      apply list_elem_of_fmap in Hc as (kw & -> & Hkw).
      assert (Hs : is_Some (node self u)).
      { by apply (no_dangling_closed self (kw_func kw) Hnd (Hdeps kw Hkw)). }
      split; [done|]. intros ->. rewrite Hfresh in Hs. by destruct Hs. }
    assert (Hbelow : ∀ c v, edge (chain_setitem self key value) key c →
              rtc (edge (chain_setitem self key value)) c v →
              rtc (edge self) c v ∧ is_Some (node self v) ∧ v ≠ key).
    { intros c v Hc Hv.
      assert (Hv' : rtc (edge self) c v).
      { apply (rtc_after_avoiding self key value); [|done].
        intros u Hu. by apply (Hchild c Hc u). }
      split; [done|]. by apply (Hchild c Hc v). }
    split.
    + intros v Hv. apply rtc_inv in Hv as [<-|(c & Hc & Hr)]; [by rewrite Hkey|].
      destruct (Hbelow _ _ Hc Hr) as (_ & Hs & Hne).
      rewrite node_chain_setitem. by destruct (decide (key = v)).
    + intros (v & Hv & Hcyc). apply rtc_inv in Hv as [<-|(c & Hc & Hr)].
      * apply tc_inv_l in Hcyc as (y & Hy & Hr).
        by destruct (Hbelow _ _ Hy Hr) as (_ & _ & Hne).
      * destruct (Hbelow _ _ Hc Hr) as (Hr' & _ & _).
        apply (Hac v). apply (tc_after_avoiding self key value); [|done].
        intros u Hu. apply (Hchild c Hc u). by etrans.
Qed.

Lemma empty_storage_well_formed : acyclic empty_storage ∧ no_dangling empty_storage.
Proof.
  assert (He : ∀ k c, ¬ edge empty_storage k c).
  { intros k c (dep & Hd & _). discriminate Hd. }
  split.
  - intros k Hk. apply tc_inv_l in Hk as (y & Hy & _). by apply He in Hy.
  - intros k c Hk. by apply He in Hk.
Defined.

Lemma setitem_new_key_iff_witness :
  (acyclic empty_storage ∧ no_dangling empty_storage ∧ node empty_storage 1 = None) ∧
  ((__setitem__ empty_storage 1 unknown_then_self).1 = Return tt ↔
   ∀ kw, kw ∈ subdeps unknown_then_self → is_Some (node empty_storage (kw_func kw))).
Proof.
  destruct empty_storage_well_formed as [H1 H2].
  split; [by split_and!|].
  exact (setitem_new_key_iff empty_storage 1 unknown_then_self H1 H2 eq_refl).
Defined.







(** ** What resolution does to the world *)

Lemma grows_refl P w : grows P w w.
Proof. split; [|done]. exists []. by rewrite app_nil_r. Qed.

Lemma grows_trans P w1 w2 w3 : grows P w1 w2 → grows P w2 w3 → grows P w1 w3.
Proof.
  intros [(e1 & H1 & F1) C1] [(e2 & H2 & F2) C2]. split; [|by auto].
  exists (e1 ++ e2). split; [by rewrite H2, H1, app_assoc|]. by apply Forall_app.
Qed.

Lemma grows_weaken (P Q : Event → Prop) w w' :
  (∀ e, P e → Q e) → grows P w w' → grows Q w w'.
Proof.
  intros HPQ [(evs & H & F) C]. split; [|done]. exists evs. split; [done|].
  by eapply Forall_impl.
Qed.

Lemma grows_materialize P a s kw w :
  P (mkEvent s a) → grows P w (materialize a s kw w).2.
Proof.
  intros HP. split.
  - unfold materialize. destruct (kind s).
    + exists [mkEvent s a]. split; [done|]. by constructor.
    + destruct (cached w s); [exists []; by rewrite app_nil_r|].
      exists [mkEvent s a]. split; [done|]. by constructor.
  - intros s' v. apply materialize_keeps_cache.
Qed.

Lemma growing_bind {A B} P (m : Eff A) (k : A → Eff B) :
  growing P m → (∀ a, growing P (k a)) → growing P (x ← m ; k x).
Proof.
  intros Hm Hk w. rewrite eff_bind_unfold. specialize (Hm w).
  destruct (m w) as [[a|e|] w1]; simpl in *; [|done..].
  eapply grows_trans; [done|]. apply Hk.
Qed.

Lemma growing_ret {A} P (a : A) : growing P (mret a).
Proof. intros w. apply grows_refl. Qed.

Lemma growing_raise {A} P e : growing P (@raise A e).
Proof. intros w. apply grows_refl. Qed.

Lemma growing_pure {A} P (o : outcome A) : growing P (pure_outcome o).
Proof. intros w. apply grows_refl. Qed.

Lemma growing_weaken {A} (P Q : Event → Prop) (m : Eff A) :
  (∀ e, P e → Q e) → growing P m → growing Q m.
Proof. intros HPQ Hm w. by eapply grows_weaken. Qed.


Lemma sync_event_sound e : sync_event e → sound_event e.
Proof. intros [H1 H2]. unfold sound_event. congruence. Qed.








(** X10.  When no asynchronous factory can be reached from the key,
    [aresolve] is [resolve]: the same outcome in the same world, on every
    storage. *)
Theorem aresolve_is_resolve_when_sync (self : DepStorage) (key : Key) (w : World) :
  ¬ async_reachable self key → aresolve self key w = resolve self key w.
Proof.
  intros Hna. pose proof (resolve_sync_cases self key w) as Hs.
  unfold aresolve, _resolve_async, resolve. rewrite !eff_bind_unfold.
  destruct (_resolve_sync self key w) as [[p|e|] w1]; [|done..].
  destruct Hs as (dep & Hn & _ & Hsc & Hun & _ & Hsome).
  destruct p as [sc res under unres]. simpl in Hsc, Hun, Hsome. subst sc unres.
  destruct under as [|pk pks].
  2:{ exfalso. destruct Hsome as (kw & Hkw & Hk); [done|]. apply Hna.
      eapply async_reachable_step; [|done]. by eapply edge_of_kwarg. }
  rewrite resolve_async_dfs_eq, eff_bind_unfold. cbn [complete_pending].
  unfold mret at 1, Eff_ret at 1. cbv beta iota.
  unfold mret at 1, Eff_ret at 1. cbv beta iota.
  unfold p_is_async. cbn [p_scope].
  destruct (is_async (scope dep)) eqn:Ha; [|done].
  exfalso. apply Hna. exists key, dep. by split.
Qed.

Lemma chain_storage_2_sync : ¬ async_reachable chain_storage 2.
Proof.
  pose proof (sync_dfs_spec chain_storage 3 2 (mkDependency (plain 2) [needs "a"%string 1])
                fresh_world eq_refl) as H.
  unfold sync_dfs_post in H.
  assert (E : resolve_sync_dfs chain_storage 3
                (partially_resolved (mkDependency (plain 2) [needs "a"%string 1]))
                false fresh_world
              = (Return (Value (Built 1 2 [("a"%string, Built 0 1 [])])),
                 mkWorld [mkEvent (plain 1) false; mkEvent (plain 2) false] [])).
  { vm_compute. reflexivity. }
  rewrite E in H. exact (proj2 H).
Defined.

Lemma aresolve_is_resolve_when_sync_witness :
  ¬ async_reachable chain_storage 2 ∧
  aresolve chain_storage 2 fresh_world = resolve chain_storage 2 fresh_world.
Proof.
  split; [exact chain_storage_2_sync|].
  exact (aresolve_is_resolve_when_sync chain_storage 2 fresh_world chain_storage_2_sync).
Defined.

(** ** Every declared kwarg is supplied *)








(** X12.  [_has_cycle] terminates on every storage, cyclic ones included:
    it returns a boolean, or raises the [UnknownDependency] of a key that
    can be reached and that no layer holds.  The [ValueError] of its inner
    [dfs] never leaves it. *)
Theorem has_cycle_terminates (self : DepStorage) (key : Key) :
  (∃ b, _has_cycle self key = Return b) ∨
  (∃ k, _has_cycle self key = Raise (UnknownDependency k) ∧
        rtc (edge self) key k ∧ node self k = None).
Proof.
  destruct (_has_cycle self key) as [b|e|] eqn:E.
  - left. by exists b.
  - right. apply has_cycle_raise in E as (k & -> & Hr & Hk). by exists k.
  - by apply has_cycle_total in E.
Qed.

(** ** Membership *)

Lemma chain_contains_lookup {V} (self : ChainMap V) key :
  chain_contains self key = true ↔ is_Some (chain_lookup (maps self) key).
Proof.
  unfold chain_contains. generalize (maps self). intros ms.
  induction ms as [|m ms IH]; cbn [existsb chain_lookup].
  { split; [done|]. by intros [? ?]. }
  rewrite orb_true_iff, IH, bool_decide_eq_true.
  destruct (m !! key) as [v|].
  - split; [by eauto|]. intros _. left. by eexists.
  - split; [|by right]. intros [[? ?]|?]; done.
Qed.

Lemma chain_contains_false {V} (self : ChainMap V) key :
  chain_contains self key = false ↔ chain_lookup (maps self) key = None.
Proof.
  rewrite <- not_true_iff_false, chain_contains_lookup.
  destruct (chain_lookup (maps self) key); split; try done.
  intros H. destruct H. by eexists.
Qed.

(** X13.  Membership agrees with lookup: [key in di] holds iff
    [_get_factory] returns a dependency, and fails iff it raises
    [UnknownDependency] of that key; likewise for the chain of a
    [DepStorage] and [DepChainMap.__getitem__]. *)
Theorem contains_iff_lookup (self : DepStorage) (di : TinyDI.TinyDI) (key : Key) :
  (chain_contains self key = true ↔ ∃ dep, __getitem__ self key = Return dep) ∧
  (chain_contains self key = false ↔
     __getitem__ self key = Raise (UnknownDependency key)) ∧
  (TinyDI.__contains__ di key = true ↔
     ∃ dep, TinyDI._get_factory di key = Return dep) ∧
  (TinyDI.__contains__ di key = false ↔
     TinyDI._get_factory di key = Raise (UnknownDependency key)).
Proof.
  unfold __getitem__, TinyDI._get_factory, TinyDI.__contains__.
  rewrite !chain_contains_lookup, !chain_contains_false.
  destruct (chain_lookup (maps self) key) as [v1|];
    destruct (chain_lookup (maps (TinyDI._deps di)) key) as [v2|];
    (split_and!; split; try done; try (by eauto); by intros [? ?]).
Qed.

(** ** Registration in [TinyDI] *)

Lemma get_factories_Return (self : TinyDI.TinyDI) anns injectables :
  TinyDI.get_factories self anns = Return injectables →
  Forall2 (λ ann inj, inj.1 = ann.1 ∧ TinyDI._get_factory self ann.2 = Return inj.2)
          anns injectables.
Proof.
  revert injectables. induction anns as [|[arg factory] anns IH]; intros injectables.
  { intros [= <-]. constructor. }
  cbn [TinyDI.get_factories].
  destruct (TinyDI._get_factory self factory) as [dep|e|] eqn:E; [|done..].
  cbn [mbind outcome_bind].
  destruct (TinyDI.get_factories self anns) as [rest|e|]; [|done..].
  intros [= <-]. constructor; [done|]. by apply IH.
Qed.

Lemma kwargs_to_inject_nil factories : TinyDI._kwargs_to_inject [] factories = factories.
Proof.
  unfold TinyDI._kwargs_to_inject. induction factories as [|p l IH]; [done|].
  rewrite filter_cons_True; [by rewrite IH|]. apply not_elem_of_nil.
Qed.

(** X14.  [TinyDI.__setitem__] with a key that is not callable raises
    [InvalidOperation], and any failure leaves the container as it was.  A
    success stores, under the key, the scope (a bare callable wrapped in the
    default [Factory] scope) with the dependencies that [_get_factory]
    returned for the annotated parameters at that moment, in their order;
    the key is then contained, and lookup, membership, [get] and [aget] of
    every other key are as before, also of keys that require the
    re-registered one. *)
Theorem tinydi_setitem_roundtrip (callable iscoroutinefunction : Key → bool)
    (annotations : Key → list (string * Key)) (di : TinyDI.TinyDI) (key : Key)
    (candidate : TinyDI.Registrable) :
  let scope_of :=
    match candidate with
    | TinyDI.AsScope s => s
    | TinyDI.AsCallable f => TinyDI.default_scope_class iscoroutinefunction f
    end in
  let result := TinyDI.__setitem__ callable iscoroutinefunction annotations di key
                  candidate in
  (callable key = false →
     ∃ msg, result = (Raise (InvalidOperation msg), di)) ∧
  (result.1 ≠ Return tt → result.2 = di) ∧
  (result.1 = Return tt →
     ∃ injectables,
       Forall2 (λ ann inj, inj.1 = ann.1 ∧
                           TinyDI._get_factory di ann.2 = Return inj.2)
               (annotations (func scope_of)) injectables ∧
       TinyDI._get_factory result.2 key =
         Return (TinyDI.mkDep scope_of (dict_of injectables)) ∧
       TinyDI.__contains__ result.2 key = true ∧
       ∀ k, k ≠ key →
         TinyDI._get_factory result.2 k = TinyDI._get_factory di k ∧
         TinyDI.__contains__ result.2 k = TinyDI.__contains__ di k ∧
         ∀ w, TinyDI.get result.2 k w = TinyDI.get di k w ∧
              TinyDI.aget result.2 k w = TinyDI.aget di k w).
Proof.
  intros scope_of result. unfold result, TinyDI.__setitem__.
  fold scope_of. unfold TinyDI._get_factories_for_func.
  destruct (callable key); cbn [negb].
  2:{ split_and!; [by eexists|done|done]. }
  destruct (TinyDI.get_factories di (annotations (func scope_of)))
    as [injectables|e|] eqn:E; cbn [fst snd]; (split_and!; [done|done|]); [|done..].
  intros _. exists injectables. rewrite kwargs_to_inject_nil.
  assert (Hkey : TinyDI._get_factory
            (TinyDI.mkTinyDI (chain_setitem (TinyDI._deps di) key
               (TinyDI.mkDep scope_of (dict_of injectables)))) key
          = Return (TinyDI.mkDep scope_of (dict_of injectables))).
  { unfold TinyDI._get_factory, chain_setitem, maps.
    cbn [TinyDI._deps innermost ancestors chain_lookup]. by rewrite lookup_insert_eq. }
  assert (Hother : ∀ k, k ≠ key →
            TinyDI._get_factory
              (TinyDI.mkTinyDI (chain_setitem (TinyDI._deps di) key
                 (TinyDI.mkDep scope_of (dict_of injectables)))) k
            = TinyDI._get_factory di k).
  { intros k Hk. unfold TinyDI._get_factory, chain_setitem, maps.
    cbn [TinyDI._deps innermost ancestors chain_lookup].
    by rewrite lookup_insert_ne. }
  split_and!; [by apply get_factories_Return|done| |].
  - unfold TinyDI.__contains__. apply chain_contains_lookup.
    unfold TinyDI._get_factory in Hkey. cbn [TinyDI._deps] in *.
    by destruct (chain_lookup _ key).
  - intros k Hk. specialize (Hother k Hk). split_and!; [done| |].
    + unfold TinyDI.__contains__, TinyDI._get_factory in *. cbn [TinyDI._deps] in *.
      destruct (chain_contains (TinyDI._deps di) k) eqn:Ec.
      * apply chain_contains_lookup in Ec as [v Ev]. apply chain_contains_lookup.
        rewrite Ev in Hother. by destruct (chain_lookup _ k).
      * apply chain_contains_false in Ec. apply chain_contains_false.
        rewrite Ec in Hother. by destruct (chain_lookup _ k).
    + intros w. unfold TinyDI.get, TinyDI.__getitem__, TinyDI.aget.
      rewrite !eff_bind_unfold. by rewrite Hother.
Qed.

(** ** What the entry points of [TinyDI] do to the world *)

Lemma growing_total_materialize P a s kw :
  P (mkEvent s a) → growing P (total (materialize a s kw)).
Proof.
  intros HP w. unfold total.
  pose proof (grows_materialize P a s kw w HP) as H.
  by destruct (materialize a s kw w).
Qed.

Lemma growing_d_call n : ∀ d, TinySpec.d_size d < n →
  TinyDI.d_is_async d = false → growing sync_event (TinyDI.d_call d).
Proof.
  induction n as [|n IH]; intros [sc kw] Hsz Ha; [lia|].
  rewrite d_is_async_eq in Ha. apply orb_false_iff in Ha as [Hsc Hkw].
  rewrite d_call_eq. apply growing_bind.
  - assert (Hsub : ∀ n' sub, (n', sub) ∈ kw → TinySpec.d_size sub < n).
    { intros n' sub Hin. pose proof (d_size_sub n' sub kw sc Hin). lia. }
    clear Hsz. induction kw as [|[n' sub] kw IHkw]; [apply growing_ret|].
    cbn [TinySpec.any_async] in Hkw. apply orb_false_iff in Hkw as [Hs Hkw].
    cbn [TinySpec.call_each]. apply growing_bind.
    + apply IH; [|done]. apply (Hsub n'). left.
    + intros v. apply growing_bind.
      * apply IHkw; [done|]. intros n1 s1 H1. apply (Hsub n1). by right.
      * intros rest. apply growing_ret.
  - intros kwargs. by apply growing_total_materialize.
Qed.

Lemma growing_d_acall n : ∀ d, TinySpec.d_size d < n →
  growing sound_event (TinyDI.d_acall d).
Proof.
  induction n as [|n IH]; intros [sc kw] Hsz; [lia|].
  rewrite d_acall_eq. apply growing_bind.
  - assert (Hsub : ∀ n' sub, (n', sub) ∈ kw → TinySpec.d_size sub < n).
    { intros n' sub Hin. pose proof (d_size_sub n' sub kw sc Hin). lia. }
    clear Hsz. induction kw as [|[n' sub] kw IHkw]; [apply growing_ret|].
    cbn [TinySpec.acall_each]. apply growing_bind.
    + apply IH. apply (Hsub n'). left.
    + intros v. apply growing_bind.
      * apply IHkw. intros n1 s1 H1. apply (Hsub n1). by right.
      * intros rest. apply growing_ret.
  - intros kwargs. by apply growing_total_materialize.
Qed.

(** X15.  Whatever its outcome, [TinyDI.get] only appends calls of
    synchronous factories to the log of invocations, and [TinyDI.aget] only
    invocations that are awaited iff the factory is asynchronous; neither
    drops a cached value. *)
Theorem tinydi_entry_points_events (di : TinyDI.TinyDI) (key : Key) (w : World) :
  grows sync_event w (TinyDI.get di key w).2 ∧
  grows sound_event w (TinyDI.aget di key w).2.
Proof.
  split.
  - revert w. change (growing sync_event (TinyDI.get di key)).
    unfold TinyDI.get, TinyDI.__getitem__. apply growing_bind; [apply growing_pure|].
    intros dep. destruct (TinyDI.d_is_async dep) eqn:Ha; [apply growing_raise|].
    by apply (growing_d_call (S (TinySpec.d_size dep))); [lia|].
  - revert w. change (growing sound_event (TinyDI.aget di key)).
    unfold TinyDI.aget. apply growing_bind; [apply growing_pure|].
    intros dep. destruct (TinyDI.d_is_async dep) eqn:Ha.
    + apply (growing_d_acall (S (TinySpec.d_size dep))). lia.
    + apply (growing_weaken sync_event); [apply sync_event_sound|].
      by apply (growing_d_call (S (TinySpec.d_size dep))); [lia|].
Qed.

(** ** [TinyDI.inject] *)












Lemma setitem_needs_four :
  __setitem__ chain_storage 5 needs_four
  = (Return tt, chain_setitem chain_storage 5 needs_four).
Proof. vm_compute. reflexivity. Defined.

Lemma setitem_getitem_roundtrip_witness :
  __setitem__ chain_storage 5 needs_four
    = (Return tt, chain_setitem chain_storage 5 needs_four) ∧
  __getitem__ (chain_setitem chain_storage 5 needs_four) 5 = Return needs_four.
Proof.
  split; [exact setitem_needs_four|].
  exact (proj1 (setitem_getitem_roundtrip _ _ _ _ setitem_needs_four)).
Defined.

Lemma setitem_keeps_well_formed_witness :
  __setitem__ chain_storage 5 needs_four
    = (Return tt, chain_setitem chain_storage 5 needs_four) ∧
  _has_cycle (chain_setitem chain_storage 5 needs_four) 5 = Return false.
Proof.
  split; [exact setitem_needs_four|].
  exact (proj2 (proj2 (setitem_keeps_well_formed _ _ _ _ setitem_needs_four))).
Defined.

Lemma setitem_idempotent_witness :
  __setitem__ chain_storage 5 needs_four
    = (Return tt, chain_setitem chain_storage 5 needs_four) ∧
  __setitem__ (chain_setitem chain_storage 5 needs_four) 5 needs_four
    = (Return tt, chain_setitem chain_storage 5 needs_four).
Proof.
  split; [exact setitem_needs_four|].
  exact (setitem_idempotent _ _ _ _ setitem_needs_four).
Defined.

Lemma setitem_rejects_back_edge_witness :
  (needs "d"%string 4 ∈ subdeps closes_cycle ∧
   rtc (edge chain_storage) (kw_func (needs "d"%string 4)) 1) ∧
  (__setitem__ chain_storage 1 closes_cycle).2 = chain_storage.
Proof.
  assert (H1 : needs "d"%string 4 ∈ subdeps closes_cycle) by left.
  assert (H2 : rtc (edge chain_storage) (kw_func (needs "d"%string 4)) 1).
  { apply (rtc_l _ _ 3); [eexists; split; [reflexivity|left]|].
    apply (rtc_l _ _ 2); [eexists; split; [reflexivity|left]|].
    apply rtc_once. eexists; split; [reflexivity|left]. }
  split; [by split|].
  exact (proj2 (setitem_rejects_back_edge _ _ _ _ H1 H2)).
Defined.


Lemma get_factories_first_unknown (self : TinyDI.TinyDI) before arg factory rest :
  Forall (λ ann, is_Some (chain_lookup (maps (TinyDI._deps self)) ann.2)) before →
  chain_lookup (maps (TinyDI._deps self)) factory = None →
  TinyDI.get_factories self (before ++ (arg, factory) :: rest)
  = Raise (UnknownDependency factory).
Proof.
  intros Hb Hf. induction Hb as [|[a f] before [dep Hd] _ IH].
  - cbn [app TinyDI.get_factories]. unfold TinyDI._get_factory. by rewrite Hf.
  - cbn [app TinyDI.get_factories]. unfold TinyDI._get_factory at 1.
    cbn [snd] in Hd. rewrite Hd. cbn [mbind outcome_bind]. by rewrite IH.
Qed.

(** X18.  When the annotated parameters of a function name an unregistered
    factory, with every factory named before it registered, decorating the
    function with [inject] and registering a scope of it both raise
    [UnknownDependency] of that first unregistered factory, and the
    registration leaves the container as it was. *)
Theorem first_unknown_annotation_reported (callable iscoroutinefunction : Key → bool)
    (annotations : Key → list (string * Key)) (di : TinyDI.TinyDI) (key fn : Key)
    (sc : Scope) (before rest : list (string * Key)) (arg : string) (factory : Key) :
  annotations fn = before ++ (arg, factory) :: rest →
  Forall (λ ann, TinyDI.__contains__ di ann.2 = true) before →
  TinyDI.__contains__ di factory = false →
  inject iscoroutinefunction annotations di fn = Raise (UnknownDependency factory) ∧
  (callable key = true → func sc = fn →
   TinyDI.__setitem__ callable iscoroutinefunction annotations di key (TinyDI.AsScope sc)
   = (Raise (UnknownDependency factory), di)).
Proof.
  intros Hanns Hb Hf.
  assert (Hg : TinyDI.get_factories di (annotations fn)
               = Raise (UnknownDependency factory)).
  { rewrite Hanns. apply get_factories_first_unknown.
    - eapply Forall_impl; [done|]. intros ann Ha. by apply chain_contains_lookup.
    - by apply chain_contains_false. }
  split.
  - unfold inject, TinyDI._get_factories_for_func. by rewrite Hg.
  - intros Hc Hfunc. unfold TinyDI.__setitem__, TinyDI._get_factories_for_func.
    by rewrite Hc, Hfunc, Hg.
Qed.

Lemma first_unknown_annotation_reported_witness :
  (∀ f : Key, (λ _ : Key, [("c"%string, 3); ("z"%string, 8); ("y"%string, 9)]) f
     = [("c"%string, 3)] ++ ("z"%string, 8) :: [("y"%string, 9)]) ∧
  inject (λ _, false) (λ _, [("c"%string, 3); ("z"%string, 8); ("y"%string, 9)])
    tiny_container 5 = Raise (UnknownDependency 8).
Proof.
  split; [done|].
  refine (proj1 (first_unknown_annotation_reported (λ _, true) (λ _, false)
            (λ _, [("c"%string, 3); ("z"%string, 8); ("y"%string, 9)])
            tiny_container 5 5 (plain 5) [("c"%string, 3)] [("y"%string, 9)]
            "z"%string 8 eq_refl _ eq_refl)).
  by repeat constructor.
Defined.

Lemma setitem_succeeds_iff_witness :
  ((__setitem__ chain_storage 5 needs_four).1 = Return tt ∧
   (__setitem__ chain_storage 5 needs_four).2
     = chain_setitem chain_storage 5 needs_four) ∧
  ((__setitem__ chain_storage 1 closes_cycle).1 ≠ Return tt ∧
   (__setitem__ chain_storage 1 closes_cycle).2 = chain_storage).
Proof.
  assert (H1 : (__setitem__ chain_storage 5 needs_four).1 = Return tt)
    by (vm_compute; reflexivity).
  assert (H2 : (__setitem__ chain_storage 1 closes_cycle).1 ≠ Return tt)
    by (vm_compute; discriminate).
  split; split; [exact H1| |exact H2|].
  - exact (proj1 (proj2 (setitem_succeeds_iff _ _ _)) H1).
  - exact (proj1 (proj2 (proj2 (setitem_succeeds_iff _ _ _)) H2)).
Defined.

Lemma tinydi_setitem_roundtrip_witness :
  (TinyDI.__setitem__ (λ _, true) (λ _, false) (λ _, [("c"%string, 3)])
     tiny_container 5 (TinyDI.AsCallable 5)).1 = Return tt ∧
  TinyDI.__contains__
    (TinyDI.__setitem__ (λ _, true) (λ _, false) (λ _, [("c"%string, 3)])
       tiny_container 5 (TinyDI.AsCallable 5)).2 5 = true.
Proof.
  assert (H : (TinyDI.__setitem__ (λ _, true) (λ _, false) (λ _, [("c"%string, 3)])
                 tiny_container 5 (TinyDI.AsCallable 5)).1 = Return tt)
    by (vm_compute; reflexivity).
  split; [exact H|].
  destruct (proj2 (proj2 (tinydi_setitem_roundtrip (λ _, true) (λ _, false)
              (λ _, [("c"%string, 3)]) tiny_container 5 (TinyDI.AsCallable 5))) H)
    as (injectables & _ & _ & Hin & _).
  exact Hin.
Defined.
